(** * nextpnr: the default resource-binding layer of [BaseArch]

    A shallow embedding of [common/base_arch.h]: the three binding maps
    (bel to cell, wire to net, pip to net) with their bind/unbind protocol,
    the availability queries, and the cell-type / bel-bucket index built by
    [init_cell_types] and [init_bel_buckets].

    A failed [NPNR_ASSERT] ends the run; the operations that contain one
    return [option], with [None] for the fatal outcome. *)

From stdpp Require Import base option functions list sorting gmap.

Set Warnings "-clear-no-such-hyp".

(** ** The interface the device description supplies *)

(** [ArchAPI] gathers what [BaseArch] takes from its environment: the opaque
    identity types with their default-constructed (null) values, the
    enumeration of bels with their types, the destination wire of a pip, and
    the order [operator<] of [IdString] that [std::sort] uses.  None of these
    is defined in [base_arch.h]; they are parameters of the development. *)
Class ArchAPI (BelId WireId PipId IdString : Type)
    `{Countable BelId, Countable WireId, Countable PipId, Countable IdString} := {
  BelId_null : BelId;                      (* BelId()  *)
  WireId_null : WireId;                    (* WireId() *)
  PipId_null : PipId;                      (* PipId()  *)
  getBels : list BelId;
  getBelType : BelId → IdString;
  getPipDstWire : PipId → WireId;
  IdString_le : relation IdString;         (* not (b < a) *)
  IdString_le_dec :: RelDecision IdString_le;
  IdString_le_po :: PartialOrder IdString_le;
  IdString_le_total :: Total IdString_le;
}.

(** Modelled from the spec: the placement-strength tag of
    [nextpnr_types.h]; this file only ever names [STRENGTH_NONE]. *)
Inductive PlaceStrength :=
  | STRENGTH_NONE
  | STRENGTH_WEAK
  | STRENGTH_STRONG
  | STRENGTH_PLACER
  | STRENGTH_FIXED
  | STRENGTH_LOCKED
  | STRENGTH_USER.

#[global] Instance PlaceStrength_eq_dec : EqDecision PlaceStrength.
Proof. solve_decision. Defined.

(** Addresses of the [CellInfo] and [NetInfo] objects of the design.  A
    [CellInfo *] or [NetInfo *] stored in a map is an [option] of an address,
    [nullptr] being [None]. *)
Definition CellPtr := positive.
Definition NetPtr := positive.
Abbreviation nullptr := None (only parsing).

Section BaseArch.
Context `{ArchAPI BelId WireId PipId IdString}.

(** The bel-bucket id of the default ranges is the [IdString] itself
    ([bbid_from_name] and [bbid_to_name] are the identity when the types
    coincide and assert otherwise). *)
#[local] Abbreviation BelBucketId := IdString (only parsing).

(** [NPNR_ASSERT(c)]: go on when [c] holds, fatal otherwise. *)
#[local] Abbreviation NPNR_ASSERT := (guard_or ()) (only parsing).

(** ** Objects of the design data base *)

(** The two fields of [CellInfo] that binding touches. *)
Record CellInfo := {
  bel : BelId;
  belStrength : PlaceStrength;
}.

(** An entry of [NetInfo::wires]. *)
Record PipMap := {
  pip : PipId;
  strength : PlaceStrength;
}.

Record NetInfo := {
  wires : gmap WireId PipMap;
}.

(** Modelled from the spec: the observer notification.  [refreshUiBel],
    [refreshUiWire] and [refreshUiPip] are declared outside this file; each
    call is recorded, in order, as one event. *)
Inductive UiEvent :=
  | RefreshUiBel (b : BelId)
  | RefreshUiWire (w : WireId)
  | RefreshUiPip (p : PipId).

(** ** The state *)

(** The data members of [BaseArch], followed by what the object reaches
    through pointers and its base class: the cells and nets of the design
    (a store indexed by address) and the log of observer notifications. *)
Record BaseArch := {
  base_bel2cell : gmap BelId (option CellPtr);
  base_wire2net : gmap WireId (option NetPtr);
  base_pip2net : gmap PipId (option NetPtr);
  cell_types : list IdString;
  bel_buckets : list BelBucketId;
  bucket_bels : gmap BelBucketId (list BelId);
  cell_types_initialised : bool;
  bel_buckets_initialised : bool;
  cells : CellPtr → CellInfo;
  nets : NetPtr → NetInfo;
  ui_events : list UiEvent;
}.

(** A freshly constructed architecture over a given design: empty maps,
    empty indices, both flags false, nothing notified yet. *)
Definition BaseArch_new (cs : CellPtr → CellInfo) (ns : NetPtr → NetInfo)
    : BaseArch :=
  {| base_bel2cell := ∅; base_wire2net := ∅; base_pip2net := ∅;
     cell_types := []; bel_buckets := []; bucket_bels := ∅;
     cell_types_initialised := false; bel_buckets_initialised := false;
     cells := cs; nets := ns; ui_events := [] |}.

(** The value read through [m[k]] on a map of pointers: [operator[]]
    creates a null entry when the key is absent.  Every path that survives
    the assertions overwrites that entry, so only the value is kept. *)
Definition entry {K} `{Countable K} {P} (m : gmap K (option P)) (k : K)
    : option P :=
  default nullptr (m !! k).

(** ** Bel methods *)

Definition getBoundBelCell (s : BaseArch) (b : BelId) : option CellPtr :=
  match base_bel2cell s !! b with
  | None => nullptr
  | Some fnd => fnd
  end.

Definition checkBelAvail (s : BaseArch) (b : BelId) : bool :=
  bool_decide (getBoundBelCell s b = nullptr).

Definition getConflictingBelCell (s : BaseArch) (b : BelId) : option CellPtr :=
  getBoundBelCell s b.

Definition bindBel (s : BaseArch) (b : BelId) (cell : CellPtr)
    (st : PlaceStrength) : option BaseArch :=
  NPNR_ASSERT (b ≠ BelId_null);;
  NPNR_ASSERT (entry (base_bel2cell s) b = nullptr);;
  Some
    {| base_bel2cell := <[b := Some cell]> (base_bel2cell s);
       base_wire2net := base_wire2net s;
       base_pip2net := base_pip2net s;
       cell_types := cell_types s;
       bel_buckets := bel_buckets s;
       bucket_bels := bucket_bels s;
       cell_types_initialised := cell_types_initialised s;
       bel_buckets_initialised := bel_buckets_initialised s;
       cells := <[cell := {| bel := b; belStrength := st |}]> (cells s);
       nets := nets s;
       ui_events := ui_events s ++ [RefreshUiBel b] |}.

Definition unbindBel (s : BaseArch) (b : BelId) : option BaseArch :=
  NPNR_ASSERT (b ≠ BelId_null);;
  cell ← entry (base_bel2cell s) b;
  Some
    {| base_bel2cell := <[b := nullptr]> (base_bel2cell s);
       base_wire2net := base_wire2net s;
       base_pip2net := base_pip2net s;
       cell_types := cell_types s;
       bel_buckets := bel_buckets s;
       bucket_bels := bucket_bels s;
       cell_types_initialised := cell_types_initialised s;
       bel_buckets_initialised := bel_buckets_initialised s;
       cells :=
         <[cell := {| bel := BelId_null; belStrength := STRENGTH_NONE |}]>
           (cells s);
       nets := nets s;
       ui_events := ui_events s ++ [RefreshUiBel b] |}.

(** ** Wire methods *)

Definition getBoundWireNet (s : BaseArch) (w : WireId) : option NetPtr :=
  match base_wire2net s !! w with
  | None => nullptr
  | Some fnd => fnd
  end.

Definition checkWireAvail (s : BaseArch) (w : WireId) : bool :=
  bool_decide (getBoundWireNet s w = nullptr).

Definition getConflictingWireNet (s : BaseArch) (w : WireId) : option NetPtr :=
  getBoundWireNet s w.

Definition bindWire (s : BaseArch) (w : WireId) (net : NetPtr)
    (st : PlaceStrength) : option BaseArch :=
  NPNR_ASSERT (w ≠ WireId_null);;
  NPNR_ASSERT (entry (base_wire2net s) w = nullptr);;
  Some
    {| base_bel2cell := base_bel2cell s;
       base_wire2net := <[w := Some net]> (base_wire2net s);
       base_pip2net := base_pip2net s;
       cell_types := cell_types s;
       bel_buckets := bel_buckets s;
       bucket_bels := bucket_bels s;
       cell_types_initialised := cell_types_initialised s;
       bel_buckets_initialised := bel_buckets_initialised s;
       cells := cells s;
       nets :=
         <[net := {| wires := <[w := {| pip := PipId_null; strength := st |}]>
                                (wires (nets s net)) |}]> (nets s);
       ui_events := ui_events s ++ [RefreshUiWire w] |}.

Definition unbindWire (s : BaseArch) (w : WireId) : option BaseArch :=
  NPNR_ASSERT (w ≠ WireId_null);;
  net ← entry (base_wire2net s) w;
  let net_wires := wires (nets s net) in
  it ← net_wires !! w;
  let p := pip it in
  let pip2net' :=
    if decide (p ≠ PipId_null) then <[p := nullptr]> (base_pip2net s)
    else base_pip2net s in
  Some
    {| base_bel2cell := base_bel2cell s;
       base_wire2net := <[w := nullptr]> (base_wire2net s);
       base_pip2net := pip2net';
       cell_types := cell_types s;
       bel_buckets := bel_buckets s;
       bucket_bels := bucket_bels s;
       cell_types_initialised := cell_types_initialised s;
       bel_buckets_initialised := bel_buckets_initialised s;
       cells := cells s;
       nets := <[net := {| wires := delete w net_wires |}]> (nets s);
       ui_events := ui_events s ++ [RefreshUiWire w] |}.

(** ** Pip methods *)

Definition getBoundPipNet (s : BaseArch) (p : PipId) : option NetPtr :=
  match base_pip2net s !! p with
  | None => nullptr
  | Some fnd => fnd
  end.

Definition checkPipAvail (s : BaseArch) (p : PipId) : bool :=
  bool_decide (getBoundPipNet s p = nullptr).

Definition getConflictingPipNet (s : BaseArch) (p : PipId) : option NetPtr :=
  getBoundPipNet s p.

(** No [refreshUi...] call occurs in the two pip methods. *)
Definition bindPip (s : BaseArch) (p : PipId) (net : NetPtr)
    (st : PlaceStrength) : option BaseArch :=
  NPNR_ASSERT (p ≠ PipId_null);;
  NPNR_ASSERT (entry (base_pip2net s) p = nullptr);;
  let dst := getPipDstWire p in
  NPNR_ASSERT (entry (base_wire2net s) dst = nullptr);;
  Some
    {| base_bel2cell := base_bel2cell s;
       base_wire2net := <[dst := Some net]> (base_wire2net s);
       base_pip2net := <[p := Some net]> (base_pip2net s);
       cell_types := cell_types s;
       bel_buckets := bel_buckets s;
       bucket_bels := bucket_bels s;
       cell_types_initialised := cell_types_initialised s;
       bel_buckets_initialised := bel_buckets_initialised s;
       cells := cells s;
       nets :=
         <[net := {| wires := <[dst := {| pip := p; strength := st |}]>
                                (wires (nets s net)) |}]> (nets s);
       ui_events := ui_events s |}.

Definition unbindPip (s : BaseArch) (p : PipId) : option BaseArch :=
  NPNR_ASSERT (p ≠ PipId_null);;
  net ← entry (base_pip2net s) p;
  let dst := getPipDstWire p in
  NPNR_ASSERT (entry (base_wire2net s) dst ≠ nullptr);;
  Some
    {| base_bel2cell := base_bel2cell s;
       base_wire2net := <[dst := nullptr]> (base_wire2net s);
       base_pip2net := <[p := nullptr]> (base_pip2net s);
       cell_types := cell_types s;
       bel_buckets := bel_buckets s;
       bucket_bels := bucket_bels s;
       cell_types_initialised := cell_types_initialised s;
       bel_buckets_initialised := bel_buckets_initialised s;
       cells := cells s;
       nets := <[net := {| wires := delete dst (wires (nets s net)) |}]> (nets s);
       ui_events := ui_events s |}.

(** ** Placement validity and the bel-bucket index *)

Definition isValidBelForCellType (cell_type : IdString) (b : BelId) : bool :=
  bool_decide (cell_type = getBelType b).

Definition getBelBucketByName (name : IdString) : BelBucketId := name.

Definition getBelBucketForCellType (cell_type : IdString) : BelBucketId :=
  getBelBucketByName cell_type.

Definition getBelBucketForBel (b : BelId) : BelBucketId :=
  getBelBucketForCellType (getBelType b).

(** With the default range types [return_if_match] hands back the stored
    vector. *)
Definition getCellTypes (s : BaseArch) : option (list IdString) :=
  NPNR_ASSERT (cell_types_initialised s);;
  Some (cell_types s).

Definition getBelBuckets (s : BaseArch) : option (list BelBucketId) :=
  NPNR_ASSERT (bel_buckets_initialised s);;
  Some (bel_buckets s).

(** [bucket_bels.at(bucket)] has no value for a bucket that is not a key. *)
Definition getBelsInBucket (s : BaseArch) (bucket : BelBucketId)
    : option (list BelId) :=
  NPNR_ASSERT (bel_buckets_initialised s);;
  bucket_bels s !! bucket.

(** [std::sort] with [operator<]: the ascending arrangement of the vector. *)
Definition sort_ids (l : list IdString) : list IdString :=
  merge_sort IdString_le l.

(** The local [unordered_set] filled by the first loop of [init_cell_types]. *)
Definition bel_type_set (bels : list BelId) : gset IdString :=
  foldl (λ bel_types b, bel_types ∪ {[ getBelType b ]}) ∅ bels.

Definition init_cell_types (s : BaseArch) : BaseArch :=
  let bel_types := bel_type_set getBels in
  {| base_bel2cell := base_bel2cell s;
     base_wire2net := base_wire2net s;
     base_pip2net := base_pip2net s;
     cell_types := sort_ids (cell_types s ++ elements bel_types);
     bel_buckets := bel_buckets s;
     bucket_bels := bucket_bels s;
     cell_types_initialised := true;
     bel_buckets_initialised := bel_buckets_initialised s;
     cells := cells s;
     nets := nets s;
     ui_events := ui_events s |}.

(** [bucket_bels[bucket];] creates an empty bucket unless one exists. *)
Definition create_bucket (bb : gmap BelBucketId (list BelId))
    (bucket : BelBucketId) : gmap BelBucketId (list BelId) :=
  match bb !! bucket with
  | Some _ => bb
  | None => <[bucket := []]> bb
  end.

(** [bucket_bels[bucket].push_back(bel)] *)
Definition push_back_bel (bb : gmap BelBucketId (list BelId)) (b : BelId)
    : gmap BelBucketId (list BelId) :=
  let bucket := getBelBucketForBel b in
  <[bucket := default [] (bb !! bucket) ++ [b]]> bb.

Definition init_bel_buckets (s : BaseArch) : option BaseArch :=
  types ← getCellTypes s;
  let bb1 :=
    foldl (λ bb cell_type, create_bucket bb (getBelBucketForCellType cell_type))
          (bucket_bels s) types in
  let bb2 := foldl push_back_bel bb1 getBels in
  Some
    {| base_bel2cell := base_bel2cell s;
       base_wire2net := base_wire2net s;
       base_pip2net := base_pip2net s;
       cell_types := cell_types s;
       bel_buckets := sort_ids (bel_buckets s ++ (map_to_list bb2).*1);
       bucket_bels := bb2;
       cell_types_initialised := cell_types_initialised s;
       bel_buckets_initialised := true;
       cells := cells s;
       nets := nets s;
       ui_events := ui_events s |}.

(** ** Call sequences *)

(** One call of a state-changing method, with its arguments. *)
Inductive Op :=
  | OpBindBel (b : BelId) (cell : CellPtr) (st : PlaceStrength)
  | OpUnbindBel (b : BelId)
  | OpBindWire (w : WireId) (net : NetPtr) (st : PlaceStrength)
  | OpUnbindWire (w : WireId)
  | OpBindPip (p : PipId) (net : NetPtr) (st : PlaceStrength)
  | OpUnbindPip (p : PipId)
  | OpInitCellTypes
  | OpInitBelBuckets.

Definition run_op (s : BaseArch) (o : Op) : option BaseArch :=
  match o with
  | OpBindBel b cell st => bindBel s b cell st
  | OpUnbindBel b => unbindBel s b
  | OpBindWire w net st => bindWire s w net st
  | OpUnbindWire w => unbindWire s w
  | OpBindPip p net st => bindPip s p net st
  | OpUnbindPip p => unbindPip s p
  | OpInitCellTypes => Some (init_cell_types s)
  | OpInitBelBuckets => init_bel_buckets s
  end.

(** A sequence of calls; it has a final state when no call was fatal. *)
Fixpoint run (s : BaseArch) (ops : list Op) : option BaseArch :=
  match ops with
  | [] => Some s
  | o :: ops' => s' ← run_op s o; run s' ops'
  end.

(** The states a run of calls can reach from a fresh architecture. *)
Definition reachable (s : BaseArch) : Prop :=
  ∃ cs ns ops, run (BaseArch_new cs ns) ops = Some s.

(** The bind calls that give a resource an owner: a wire gets one from
    [bindWire] and, as a destination, from [bindPip]. *)
Definition binds_bel (b : BelId) (o : Op) : Prop :=
  match o with OpBindBel b' _ _ => b' = b | _ => False end.

Definition binds_wire (w : WireId) (o : Op) : Prop :=
  match o with
  | OpBindWire w' _ _ => w' = w
  | OpBindPip p _ _ => getPipDstWire p = w
  | _ => False
  end.

Definition binds_pip (p : PipId) (o : Op) : Prop :=
  match o with OpBindPip p' _ _ => p' = p | _ => False end.

(** ** Consistency of the maps with the design objects *)

(** A bound bel is the current bel of its cell. *)
Definition bels_consistent (s : BaseArch) : Prop :=
  ∀ b cell, getBoundBelCell s b = Some cell →
    bel (cells s cell) = b.

(** A bound wire has an entry in the wire-set of its net. *)
Definition wires_consistent (s : BaseArch) : Prop :=
  ∀ w net, getBoundWireNet s w = Some net →
    is_Some (wires (nets s net) !! w).

(** A bound pip is recorded as the driver of its destination wire in the
    wire-set of its net. *)
Definition pips_consistent (s : BaseArch) : Prop :=
  ∀ p net, getBoundPipNet s p = Some net →
    pip <$> wires (nets s net) !! getPipDstWire p = Some p.

Definition bindings_consistent (s : BaseArch) : Prop :=
  bels_consistent s ∧ wires_consistent s ∧ pips_consistent s.

(** The destination wire of a bound pip belongs to the net of the pip. *)
Definition pip_dst_coupled (s : BaseArch) : Prop :=
  ∀ p net, getBoundPipNet s p = Some net →
    getBoundWireNet s (getPipDstWire p) = Some net.

(** The forms of these properties that a single call preserves: they add
    that the null bel and the null pip never have an owner. *)
Definition bels_inv (s : BaseArch) : Prop :=
  ∀ b cell, getBoundBelCell s b = Some cell →
    b ≠ BelId_null ∧ bel (cells s cell) = b.

Definition pips_inv (s : BaseArch) : Prop :=
  ∀ p net, getBoundPipNet s p = Some net →
    p ≠ PipId_null ∧
    getBoundWireNet s (getPipDstWire p) = Some net ∧
    pip <$> wires (nets s net) !! getPipDstWire p = Some p.

(** The call [o] places a cell that has no bel at the time of the call
    (every other call qualifies). *)
Definition places_free_cell (s : BaseArch) (o : Op) : Prop :=
  match o with
  | OpBindBel _ cell _ => bel (cells s cell) = BelId_null
  | _ => True
  end.

#[global] Instance places_free_cell_dec s o : Decision (places_free_cell s o).
Proof. destruct o; simpl; apply _. Defined.

(** A run in which [bindBel] is only applied to cells without a bel; a call
    that is fatal or places an already placed cell yields no final state. *)
Fixpoint run_placing_free (s : BaseArch) (ops : list Op) : option BaseArch :=
  match ops with
  | [] => Some s
  | o :: ops' =>
      guard (places_free_cell s o);;
      s' ← run_op s o; run_placing_free s' ops'
  end.

(** ** Further default methods and notions for whole runs *)

Definition getConflictingPipWire (s : BaseArch) (p : PipId) : WireId :=
  WireId_null.

(** The [refreshUi...] calls a successful call makes. *)
Definition notifications (o : Op) : list UiEvent :=
  match o with
  | OpBindBel b _ _ | OpUnbindBel b => [RefreshUiBel b]
  | OpBindWire w _ _ | OpUnbindWire w => [RefreshUiWire w]
  | OpBindPip _ _ _ | OpUnbindPip _ => []
  | OpInitCellTypes | OpInitBelBuckets => []
  end.

(** The part of the state a call works on. *)
Inductive OpKind := Placement | Routing | Indexing.

Definition op_kind (o : Op) : OpKind :=
  match o with
  | OpBindBel _ _ _ | OpUnbindBel _ => Placement
  | OpBindWire _ _ _ | OpUnbindWire _ | OpBindPip _ _ _ | OpUnbindPip _ =>
      Routing
  | OpInitCellTypes | OpInitBelBuckets => Indexing
  end.

(** Every entry of a wire-set is the entry of a wire bound to that net, and
    a driver it names is a pip bound to that net whose destination is the
    wire. *)
Definition wire_sets_exact (s : BaseArch) : Prop :=
  ∀ net w it, wires (nets s net) !! w = Some it →
    getBoundWireNet s w = Some net ∧
    (pip it ≠ PipId_null →
       getBoundPipNet s (pip it) = Some net ∧ getPipDstWire (pip it) = w).

End BaseArch.

Arguments CellInfo BelId : clear implicits.
Arguments PipMap PipId : clear implicits.
Arguments NetInfo WireId PipId {_ _}.
Arguments UiEvent BelId WireId PipId : clear implicits.
Arguments Op BelId WireId PipId : clear implicits.
Arguments BaseArch BelId WireId PipId IdString {_ _ _ _ _ _ _ _}.

(** ** A small device for concrete runs *)

(** Handles are integers with [-1] as the null handle; type symbols are
    integers in their own order.  Bels 0, 1, 2 are the sites A, B, C; the type
    symbols 1 and 2 are FF and LUT; pip [p] drives wire [p + 10]. *)
Module Toy.

Definition A : Z := 0.
Definition B : Z := 1.
Definition C : Z := 2.
Definition FF : Z := 1.
Definition LUT : Z := 2.

Definition toy_bel_type (b : Z) : Z :=
  if decide (b = C) then FF else LUT.

Definition toy_arch : ArchAPI Z Z Z Z :=
  {| BelId_null := (-1)%Z;
     WireId_null := (-1)%Z;
     PipId_null := (-1)%Z;
     getBels := [A; B; C];
     getBelType := toy_bel_type;
     getPipDstWire := λ p, (p + 10)%Z;
     IdString_le := Z.le |}.

#[local] Existing Instance toy_arch.

Definition toy_cells : CellPtr → CellInfo Z :=
  λ _, {| bel := BelId_null; belStrength := STRENGTH_NONE |}.

Definition toy_nets : NetPtr → NetInfo Z Z :=
  λ _, {| wires := ∅ |}.

Definition toy_new : BaseArch Z Z Z Z := BaseArch_new toy_cells toy_nets.

(** The state after a run on the fresh device ([toy_new] itself when a call
    of the run is fatal). *)
Definition toy_run (ops : list (Op Z Z Z)) : BaseArch Z Z Z Z :=
  default toy_new (run toy_new ops).

(** The fresh device after [init_cell_types] and [init_bel_buckets]. *)
Definition toy_indexed : BaseArch Z Z Z Z :=
  default toy_new (init_bel_buckets (init_cell_types toy_new)).

End Toy.

(** A device without bels, on the same handle types. *)
Module EmptyDevice.

Definition empty_arch : ArchAPI Z Z Z Z :=
  {| BelId_null := (-1)%Z;
     WireId_null := (-1)%Z;
     PipId_null := (-1)%Z;
     getBels := [];
     getBelType := λ _, 0%Z;
     getPipDstWire := λ p, p;
     IdString_le := Z.le |}.

End EmptyDevice.

(** * Properties *)

Section Properties.
Context `{ArchAPI BelId WireId PipId IdString}.

#[local] Abbreviation State := (BaseArch BelId WireId PipId IdString).

(** ** Reading the maps *)

Lemma entry_insert {K} `{Countable K} {P} (m : gmap K (option P)) k v k' :
  entry (<[k := v]> m) k' = if decide (k = k') then v else entry m k'.
Proof. unfold entry. rewrite lookup_insert. by case_decide. Qed.

Lemma entry_empty {K} `{Countable K} {P} (k : K) :
  entry (∅ : gmap K (option P)) k = nullptr.
Proof. unfold entry. by rewrite lookup_empty. Qed.

Lemma getBoundBelCell_entry (s : State) b :
  getBoundBelCell s b = entry (base_bel2cell s) b.
Proof. reflexivity. Qed.

Lemma getBoundWireNet_entry (s : State) w :
  getBoundWireNet s w = entry (base_wire2net s) w.
Proof. reflexivity. Qed.

Lemma getBoundPipNet_entry (s : State) p :
  getBoundPipNet s p = entry (base_pip2net s) p.
Proof. reflexivity. Qed.

Lemma checkBelAvail_spec (s : State) b :
  checkBelAvail s b = true ↔ getBoundBelCell s b = nullptr.
Proof. unfold checkBelAvail. by rewrite bool_decide_eq_true. Qed.

Lemma checkWireAvail_spec (s : State) w :
  checkWireAvail s w = true ↔ getBoundWireNet s w = nullptr.
Proof. unfold checkWireAvail. by rewrite bool_decide_eq_true. Qed.

Lemma checkPipAvail_spec (s : State) p :
  checkPipAvail s p = true ↔ getBoundPipNet s p = nullptr.
Proof. unfold checkPipAvail. by rewrite bool_decide_eq_true. Qed.

(** ** What each successful call returns *)

Lemma bindBel_Some (s : State) b cell st s' :
  bindBel s b cell st = Some s' ↔
  b ≠ BelId_null ∧ getBoundBelCell s b = nullptr ∧
  s' = {| base_bel2cell := <[b := Some cell]> (base_bel2cell s);
          base_wire2net := base_wire2net s;
          base_pip2net := base_pip2net s;
          cell_types := cell_types s;
          bel_buckets := bel_buckets s;
          bucket_bels := bucket_bels s;
          cell_types_initialised := cell_types_initialised s;
          bel_buckets_initialised := bel_buckets_initialised s;
          cells := <[cell := {| bel := b; belStrength := st |}]> (cells s);
          nets := nets s;
          ui_events := ui_events s ++ [RefreshUiBel b] |}.
Proof.
  rewrite getBoundBelCell_entry. unfold bindBel.
  repeat case_guard; simpl; naive_solver.
Qed.

Lemma unbindBel_Some (s : State) b s' :
  unbindBel s b = Some s' ↔
  b ≠ BelId_null ∧ ∃ cell, getBoundBelCell s b = Some cell ∧
  s' = {| base_bel2cell := <[b := nullptr]> (base_bel2cell s);
          base_wire2net := base_wire2net s;
          base_pip2net := base_pip2net s;
          cell_types := cell_types s;
          bel_buckets := bel_buckets s;
          bucket_bels := bucket_bels s;
          cell_types_initialised := cell_types_initialised s;
          bel_buckets_initialised := bel_buckets_initialised s;
          cells :=
            <[cell := {| bel := BelId_null; belStrength := STRENGTH_NONE |}]>
              (cells s);
          nets := nets s;
          ui_events := ui_events s ++ [RefreshUiBel b] |}.
Proof.
  rewrite getBoundBelCell_entry. unfold unbindBel.
  case_guard; simpl; [|naive_solver].
  destruct (entry (base_bel2cell s) b); simpl; naive_solver.
Qed.

Lemma bindWire_Some (s : State) w net st s' :
  bindWire s w net st = Some s' ↔
  w ≠ WireId_null ∧ getBoundWireNet s w = nullptr ∧
  s' = {| base_bel2cell := base_bel2cell s;
          base_wire2net := <[w := Some net]> (base_wire2net s);
          base_pip2net := base_pip2net s;
          cell_types := cell_types s;
          bel_buckets := bel_buckets s;
          bucket_bels := bucket_bels s;
          cell_types_initialised := cell_types_initialised s;
          bel_buckets_initialised := bel_buckets_initialised s;
          cells := cells s;
          nets :=
            <[net := {| wires := <[w := {| pip := PipId_null; strength := st |}]>
                                   (wires (nets s net)) |}]> (nets s);
          ui_events := ui_events s ++ [RefreshUiWire w] |}.
Proof.
  rewrite getBoundWireNet_entry. unfold bindWire.
  repeat case_guard; simpl; naive_solver.
Qed.

Lemma unbindWire_Some (s : State) w s' :
  unbindWire s w = Some s' ↔
  w ≠ WireId_null ∧ ∃ net it,
    getBoundWireNet s w = Some net ∧ wires (nets s net) !! w = Some it ∧
  s' = {| base_bel2cell := base_bel2cell s;
          base_wire2net := <[w := nullptr]> (base_wire2net s);
          base_pip2net :=
            if decide (pip it ≠ PipId_null)
            then <[pip it := nullptr]> (base_pip2net s)
            else base_pip2net s;
          cell_types := cell_types s;
          bel_buckets := bel_buckets s;
          bucket_bels := bucket_bels s;
          cell_types_initialised := cell_types_initialised s;
          bel_buckets_initialised := bel_buckets_initialised s;
          cells := cells s;
          nets :=
            <[net := {| wires := delete w (wires (nets s net)) |}]> (nets s);
          ui_events := ui_events s ++ [RefreshUiWire w] |}.
Proof.
  rewrite getBoundWireNet_entry. unfold unbindWire.
  case_guard; simpl; [|naive_solver].
  destruct (entry (base_wire2net s) w) as [net|]; simpl; [|naive_solver].
  destruct (wires (nets s net) !! w) as [it|] eqn:Hit; simpl; naive_solver.
Qed.

Lemma bindPip_Some (s : State) p net st s' :
  bindPip s p net st = Some s' ↔
  p ≠ PipId_null ∧ getBoundPipNet s p = nullptr ∧
  getBoundWireNet s (getPipDstWire p) = nullptr ∧
  s' = {| base_bel2cell := base_bel2cell s;
          base_wire2net := <[getPipDstWire p := Some net]> (base_wire2net s);
          base_pip2net := <[p := Some net]> (base_pip2net s);
          cell_types := cell_types s;
          bel_buckets := bel_buckets s;
          bucket_bels := bucket_bels s;
          cell_types_initialised := cell_types_initialised s;
          bel_buckets_initialised := bel_buckets_initialised s;
          cells := cells s;
          nets :=
            <[net := {| wires := <[getPipDstWire p := {| pip := p; strength := st |}]>
                                   (wires (nets s net)) |}]> (nets s);
          ui_events := ui_events s |}.
Proof.
  rewrite getBoundPipNet_entry, getBoundWireNet_entry. unfold bindPip.
  repeat case_guard; simpl; naive_solver.
Qed.

Lemma unbindPip_Some (s : State) p s' :
  unbindPip s p = Some s' ↔
  p ≠ PipId_null ∧ ∃ net,
    getBoundPipNet s p = Some net ∧
    getBoundWireNet s (getPipDstWire p) ≠ nullptr ∧
  s' = {| base_bel2cell := base_bel2cell s;
          base_wire2net := <[getPipDstWire p := nullptr]> (base_wire2net s);
          base_pip2net := <[p := nullptr]> (base_pip2net s);
          cell_types := cell_types s;
          bel_buckets := bel_buckets s;
          bucket_bels := bucket_bels s;
          cell_types_initialised := cell_types_initialised s;
          bel_buckets_initialised := bel_buckets_initialised s;
          cells := cells s;
          nets :=
            <[net := {| wires := delete (getPipDstWire p) (wires (nets s net)) |}]>
              (nets s);
          ui_events := ui_events s |}.
Proof.
  rewrite getBoundPipNet_entry, getBoundWireNet_entry. unfold unbindPip.
  rewrite option_guard_decide.
  destruct (decide (p ≠ PipId_null)); [|naive_solver].
  destruct (entry (base_pip2net s) p) as [net|]; simpl; [|naive_solver].
  case_guard; simpl; naive_solver.
Qed.

(** ** Binding and releasing a bel *)

(** C5: on a valid bel [b] that has no owner, [bindBel s b cell st] returns a
    state in which [b] is unavailable, its bound cell is [cell] and the
    strength of [cell] is [st]; [unbindBel] on that state returns one in
    which [b] is available again, has no bound cell, and the strength of
    [cell] is [STRENGTH_NONE]. *)
Theorem bindBel_then_unbindBel (s : State) b cell st :
  b ≠ BelId_null →
  getBoundBelCell s b = nullptr →
  ∃ s1, bindBel s b cell st = Some s1 ∧
    checkBelAvail s1 b = false ∧
    getBoundBelCell s1 b = Some cell ∧
    belStrength (cells s1 cell) = st ∧
    ∃ s2, unbindBel s1 b = Some s2 ∧
      checkBelAvail s2 b = true ∧
      getBoundBelCell s2 b = nullptr ∧
      belStrength (cells s2 cell) = STRENGTH_NONE.
Proof.
  intros Hb Hfree.
  eexists. split; [by apply bindBel_Some|].
  match goal with |- context [checkBelAvail ?x b = false] => set (s1 := x) end.
  assert (Hs1 : getBoundBelCell s1 b = Some cell).
  { rewrite getBoundBelCell_entry. simpl. rewrite entry_insert.
    by rewrite decide_True. }
  split_and!.
  - unfold checkBelAvail. by rewrite Hs1.
  - done.
  - simpl. by rewrite fn_lookup_insert.
  - eexists. split; [apply unbindBel_Some; eauto|].
    split_and!.
    + apply checkBelAvail_spec. rewrite getBoundBelCell_entry. simpl.
      rewrite entry_insert. by rewrite decide_True.
    + rewrite getBoundBelCell_entry. simpl.
      rewrite entry_insert. by rewrite decide_True.
    + simpl. by rewrite fn_lookup_insert.
Qed.

(** ** Pips and their destination wires *)

(** C2: when the pip [p] is valid and neither [p] nor its destination wire
    [w] has an owner, [bindPip s p net st] returns a state in which [p] and
    [w] both belong to [net] and the wire-set of [net] holds for [w] the
    driver [p] with strength [st]; when [p] or [w] already has an owner the
    call is fatal. *)
Theorem bindPip_binds_pip_and_dst (s : State) p net st :
  (p ≠ PipId_null →
   getBoundPipNet s p = nullptr →
   getBoundWireNet s (getPipDstWire p) = nullptr →
   ∃ s', bindPip s p net st = Some s' ∧
     getBoundPipNet s' p = Some net ∧
     getBoundWireNet s' (getPipDstWire p) = Some net ∧
     wires (nets s' net) !! getPipDstWire p
       = Some {| pip := p; strength := st |}) ∧
  (getBoundPipNet s p ≠ nullptr ∨
   getBoundWireNet s (getPipDstWire p) ≠ nullptr →
   bindPip s p net st = None).
Proof.
  split.
  - intros Hp Hfree Hdst.
    eexists. split; [by apply bindPip_Some|].
    rewrite getBoundPipNet_entry, getBoundWireNet_entry. simpl.
    rewrite !entry_insert, !decide_True by done.
    rewrite fn_lookup_insert. simpl. by rewrite lookup_insert_eq.
  - intros Hbound.
    destruct (bindPip s p net st) as [s'|] eqn:Hrun; [|done].
    apply bindPip_Some in Hrun. naive_solver.
Qed.

(** C3: for a valid pip [p] bound to [net] whose destination wire [w] is
    owned by [net], [unbindPip s p] returns a state in which neither [p] nor
    [w] has an owner and the wire-set of [net] has no entry for [w]. *)
Theorem unbindPip_clears_pip_and_dst (s : State) p net :
  p ≠ PipId_null →
  getBoundPipNet s p = Some net →
  getBoundWireNet s (getPipDstWire p) = Some net →
  ∃ s', unbindPip s p = Some s' ∧
    getBoundPipNet s' p = nullptr ∧
    getBoundWireNet s' (getPipDstWire p) = nullptr ∧
    wires (nets s' net) !! getPipDstWire p = None.
Proof.
  intros Hp Hpip Hdst.
  eexists. split.
  { apply unbindPip_Some. split; [done|]. exists net.
    split_and!; [done| |done]. by rewrite Hdst. }
  rewrite getBoundPipNet_entry, getBoundWireNet_entry. simpl.
  rewrite !entry_insert, !decide_True by done.
  rewrite fn_lookup_insert. simpl. by rewrite lookup_delete_eq.
Qed.

(** ** Releasing a wire *)

(** C4: for a valid wire [w] bound to [net] whose wire-set entry is [it],
    [unbindWire s w] returns a state in which [w] has no owner and the
    wire-set of [net] is the old one without the entry of [w]; every other
    net and every other wire is as before.  When [it] records a driving pip,
    that pip has no owner afterwards and every other pip keeps its owner;
    when it records none, the pip map is unchanged. *)
Theorem unbindWire_cascades_to_driver (s : State) w net it :
  w ≠ WireId_null →
  getBoundWireNet s w = Some net →
  wires (nets s net) !! w = Some it →
  ∃ s', unbindWire s w = Some s' ∧
    getBoundWireNet s' w = nullptr ∧
    wires (nets s' net) = delete w (wires (nets s net)) ∧
    (∀ net', net' ≠ net → nets s' net' = nets s net') ∧
    (∀ w', w' ≠ w → getBoundWireNet s' w' = getBoundWireNet s w') ∧
    (pip it ≠ PipId_null →
       getBoundPipNet s' (pip it) = nullptr ∧
       ∀ p', p' ≠ pip it → getBoundPipNet s' p' = getBoundPipNet s p') ∧
    (pip it = PipId_null → base_pip2net s' = base_pip2net s).
Proof.
  intros Hw Hbound Hit.
  eexists. split.
  { apply unbindWire_Some. split; [done|]. by exists net, it. }
  rewrite !getBoundWireNet_entry. simpl.
  split_and!.
  - rewrite entry_insert. by rewrite decide_True.
  - by rewrite fn_lookup_insert.
  - intros net' Hne. by rewrite fn_lookup_insert_ne.
  - intros w' Hne. rewrite !getBoundWireNet_entry. simpl.
    rewrite entry_insert. by rewrite decide_False.
  - intros Hdrv. rewrite decide_True by done. split.
    + rewrite getBoundPipNet_entry. simpl. rewrite entry_insert.
      by rewrite decide_True.
    + intros p' Hne. rewrite !getBoundPipNet_entry. simpl.
      rewrite entry_insert. by rewrite decide_False.
  - intros Hnone. rewrite decide_False; [done|]. by intros [].
Qed.

(** ** Contract violations *)

Lemma getCellTypes_Some (s : State) l :
  getCellTypes s = Some l ↔ cell_types_initialised s = true ∧ l = cell_types s.
Proof.
  unfold getCellTypes. destruct (cell_types_initialised s); simpl; naive_solver.
Qed.

Lemma getBelBuckets_Some (s : State) l :
  getBelBuckets s = Some l ↔ bel_buckets_initialised s = true ∧ l = bel_buckets s.
Proof.
  unfold getBelBuckets. destruct (bel_buckets_initialised s); simpl; naive_solver.
Qed.

Lemma getBelsInBucket_Some (s : State) bucket l :
  getBelsInBucket s bucket = Some l ↔
  bel_buckets_initialised s = true ∧ bucket_bels s !! bucket = Some l.
Proof.
  unfold getBelsInBucket.
  destruct (bel_buckets_initialised s); simpl; naive_solver.
Qed.

(** C7: in every state, binding a bel, wire or pip that has an owner is
    fatal (for a pip also when its destination wire has one); unbinding a
    bel, wire or pip that has none is fatal; each of the six calls is fatal
    on the null handle; and [getCellTypes], [getBelBuckets] and
    [getBelsInBucket] are fatal while the flag of their index is unset. *)
Theorem contract_violations_are_fatal (s : State) :
  (∀ b cell st, getBoundBelCell s b ≠ nullptr → bindBel s b cell st = None) ∧
  (∀ w net st, getBoundWireNet s w ≠ nullptr → bindWire s w net st = None) ∧
  (∀ p net st,
     getBoundPipNet s p ≠ nullptr ∨
     getBoundWireNet s (getPipDstWire p) ≠ nullptr →
     bindPip s p net st = None) ∧
  (∀ b, getBoundBelCell s b = nullptr → unbindBel s b = None) ∧
  (∀ w, getBoundWireNet s w = nullptr → unbindWire s w = None) ∧
  (∀ p, getBoundPipNet s p = nullptr → unbindPip s p = None) ∧
  (∀ cell st, bindBel s BelId_null cell st = None) ∧
  unbindBel s BelId_null = None ∧
  (∀ net st, bindWire s WireId_null net st = None) ∧
  unbindWire s WireId_null = None ∧
  (∀ net st, bindPip s PipId_null net st = None) ∧
  unbindPip s PipId_null = None ∧
  (cell_types_initialised s = false →
     getCellTypes s = None ∧ init_bel_buckets s = None) ∧
  (bel_buckets_initialised s = false →
     getBelBuckets s = None ∧ ∀ bucket, getBelsInBucket s bucket = None).
Proof.
  split_and!.
  - intros b cell st Hb. apply eq_None_not_Some. intros [s' Hs'].
    apply bindBel_Some in Hs'. naive_solver.
  - intros w net st Hw. apply eq_None_not_Some. intros [s' Hs'].
    apply bindWire_Some in Hs'. naive_solver.
  - intros p net st Hp. apply eq_None_not_Some. intros [s' Hs'].
    apply bindPip_Some in Hs'. naive_solver.
  - intros b Hb. apply eq_None_not_Some. intros [s' Hs'].
    apply unbindBel_Some in Hs'. naive_solver.
  - intros w Hw. apply eq_None_not_Some. intros [s' Hs'].
    apply unbindWire_Some in Hs'. naive_solver.
  - intros p Hp. apply eq_None_not_Some. intros [s' Hs'].
    apply unbindPip_Some in Hs'. naive_solver.
  - intros cell st. apply eq_None_not_Some. intros [s' Hs'].
    apply bindBel_Some in Hs'. naive_solver.
  - apply eq_None_not_Some. intros [s' Hs'].
    apply unbindBel_Some in Hs'. naive_solver.
  - intros net st. apply eq_None_not_Some. intros [s' Hs'].
    apply bindWire_Some in Hs'. naive_solver.
  - apply eq_None_not_Some. intros [s' Hs'].
    apply unbindWire_Some in Hs'. naive_solver.
  - intros net st. apply eq_None_not_Some. intros [s' Hs'].
    apply bindPip_Some in Hs'. naive_solver.
  - apply eq_None_not_Some. intros [s' Hs'].
    apply unbindPip_Some in Hs'. naive_solver.
  - intros Hflag. unfold init_bel_buckets, getCellTypes.
    by rewrite Hflag.
  - intros Hflag. unfold getBelBuckets, getBelsInBucket.
    by rewrite Hflag.
Qed.

(** ** Observer notifications *)

Lemma bind_unbind_bel_notify (s : State) b cell st s' :
  bindBel s b cell st = Some s' ∨ unbindBel s b = Some s' →
  ui_events s' = ui_events s ++ [RefreshUiBel b].
Proof.
  intros [Hrun | Hrun].
  - by apply bindBel_Some in Hrun as (_ & _ & ->).
  - by apply unbindBel_Some in Hrun as (_ & c0 & _ & ->).
Qed.

Lemma bind_unbind_wire_notify (s : State) w net st s' :
  bindWire s w net st = Some s' ∨ unbindWire s w = Some s' →
  ui_events s' = ui_events s ++ [RefreshUiWire w].
Proof.
  intros [Hrun | Hrun].
  - by apply bindWire_Some in Hrun as (_ & _ & ->).
  - by apply unbindWire_Some in Hrun as (_ & n0 & it & _ & _ & ->).
Qed.

(** The two pip calls leave the log as it was. *)
Lemma bind_unbind_pip_silent (s : State) p net st s' :
  bindPip s p net st = Some s' ∨ unbindPip s p = Some s' →
  ui_events s' = ui_events s.
Proof.
  intros [Hrun | Hrun].
  - by apply bindPip_Some in Hrun as (_ & _ & _ & ->).
  - by apply unbindPip_Some in Hrun as (_ & n0 & _ & _ & ->).
Qed.

(** ** Invariants of call sequences *)

Lemma init_bel_buckets_Some (s : State) s' :
  init_bel_buckets s = Some s' →
  cell_types_initialised s = true ∧
  base_bel2cell s' = base_bel2cell s ∧
  base_wire2net s' = base_wire2net s ∧
  base_pip2net s' = base_pip2net s ∧
  cells s' = cells s ∧ nets s' = nets s ∧ ui_events s' = ui_events s.
Proof.
  unfold init_bel_buckets, getCellTypes.
  destruct (cell_types_initialised s); simpl; [|done].
  by intros [= <-].
Qed.

Lemma bels_inv_frame (s s' : State) :
  base_bel2cell s' = base_bel2cell s → cells s' = cells s →
  bels_inv s → bels_inv s'.
Proof.
  intros Hm Hc Hinv b cell. rewrite getBoundBelCell_entry, Hm, Hc.
  apply Hinv.
Qed.

Lemma wires_consistent_frame (s s' : State) :
  base_wire2net s' = base_wire2net s → nets s' = nets s →
  wires_consistent s → wires_consistent s'.
Proof.
  intros Hm Hn Hinv w net. rewrite getBoundWireNet_entry, Hm, Hn.
  apply Hinv.
Qed.

Lemma pips_inv_frame (s s' : State) :
  base_pip2net s' = base_pip2net s → base_wire2net s' = base_wire2net s →
  nets s' = nets s →
  pips_inv s → pips_inv s'.
Proof.
  intros Hp Hw Hn Hinv p net.
  rewrite getBoundPipNet_entry, getBoundWireNet_entry, Hp, Hw, Hn.
  apply Hinv.
Qed.

Lemma bels_inv_step (s : State) o s' :
  places_free_cell s o → run_op s o = Some s' →
  bels_inv s → bels_inv s'.
Proof.
  intros Hfree Hrun Hinv.
  destruct o as [b0 c0 st|b0|w0 n0 st|w0|p0 n0 st|p0| |]; simpl in *.
  - apply bindBel_Some in Hrun as (Hb0 & Hunb & ->).
    intros b cell. rewrite getBoundBelCell_entry. simpl.
    rewrite entry_insert. case_decide as Hb.
    + intros [= <-]. subst b. by rewrite fn_lookup_insert.
    + intros Hbound. destruct (Hinv b cell Hbound) as [Hnn Hbel].
      split; [done|].
      rewrite fn_lookup_insert_ne; [done|]. intros <-. congruence.
  - apply unbindBel_Some in Hrun as (Hb0 & c0 & Hc0 & ->).
    intros b cell. rewrite getBoundBelCell_entry. simpl.
    rewrite entry_insert. case_decide as Hb; [done|].
    intros Hbound. destruct (Hinv b cell Hbound) as [Hnn Hbel].
    split; [done|].
    rewrite fn_lookup_insert_ne; [done|]. intros <-.
    destruct (Hinv b0 c0 Hc0) as [_ Hbel0]. congruence.
  - apply bindWire_Some in Hrun as (_ & _ & ->). exact Hinv.
  - apply unbindWire_Some in Hrun as (_ & net & it & _ & _ & ->). exact Hinv.
  - apply bindPip_Some in Hrun as (_ & _ & _ & ->). exact Hinv.
  - apply unbindPip_Some in Hrun as (_ & net & _ & _ & ->). exact Hinv.
  - injection Hrun as <-. exact Hinv.
  - apply init_bel_buckets_Some in Hrun.
    eapply bels_inv_frame; [| |done]; naive_solver.
Qed.

Lemma wires_consistent_step (s : State) o s' :
  run_op s o = Some s' → wires_consistent s → wires_consistent s'.
Proof.
  intros Hrun Hinv.
  destruct o as [b0 c0 st|b0|w0 n0 st|w0|p0 n0 st|p0| |]; simpl in *.
  - apply bindBel_Some in Hrun as (_ & _ & ->). exact Hinv.
  - apply unbindBel_Some in Hrun as (_ & c0 & _ & ->). exact Hinv.
  - apply bindWire_Some in Hrun as (_ & _ & ->).
    intros w net. rewrite getBoundWireNet_entry. simpl.
    rewrite entry_insert. case_decide as Hw.
    + intros [= <-]. subst w. rewrite fn_lookup_insert. simpl.
      by rewrite lookup_insert_eq.
    + intros Hbound. specialize (Hinv w net Hbound).
      destruct (decide (n0 = net)) as [->|Hn].
      * rewrite fn_lookup_insert. simpl. by rewrite lookup_insert_ne.
      * by rewrite fn_lookup_insert_ne.
  - apply unbindWire_Some in Hrun as (_ & n0 & it & _ & _ & ->).
    intros w net. rewrite getBoundWireNet_entry. simpl.
    rewrite entry_insert. case_decide as Hw; [done|].
    intros Hbound. specialize (Hinv w net Hbound).
    destruct (decide (n0 = net)) as [->|Hn].
    + rewrite fn_lookup_insert. simpl. by rewrite lookup_delete_ne.
    + by rewrite fn_lookup_insert_ne.
  - apply bindPip_Some in Hrun as (_ & _ & _ & ->).
    intros w net. rewrite getBoundWireNet_entry. simpl.
    rewrite entry_insert. case_decide as Hw.
    + intros [= <-]. subst w. rewrite fn_lookup_insert. simpl.
      by rewrite lookup_insert_eq.
    + intros Hbound. specialize (Hinv w net Hbound).
      destruct (decide (n0 = net)) as [->|Hn].
      * rewrite fn_lookup_insert. simpl. by rewrite lookup_insert_ne.
      * by rewrite fn_lookup_insert_ne.
  - apply unbindPip_Some in Hrun as (_ & n0 & _ & _ & ->).
    intros w net. rewrite getBoundWireNet_entry. simpl.
    rewrite entry_insert. case_decide as Hw; [done|].
    intros Hbound. specialize (Hinv w net Hbound).
    destruct (decide (n0 = net)) as [->|Hn].
    + rewrite fn_lookup_insert. simpl. by rewrite lookup_delete_ne.
    + by rewrite fn_lookup_insert_ne.
  - injection Hrun as <-. exact Hinv.
  - apply init_bel_buckets_Some in Hrun.
    eapply wires_consistent_frame; [| |done]; naive_solver.
Qed.

(** Reading a wire-set after an update of the entry of one wire of one net. *)
Lemma wires_insert_other (ns : NetPtr → NetInfo WireId PipId) n0 net w0 w
    (ws : gmap WireId (PipMap PipId)) :
  w0 ≠ w →
  (∀ x, w0 ≠ x → ws !! x = wires (ns n0) !! x) →
  wires (<[n0 := {| wires := ws |}]> ns net) !! w = wires (ns net) !! w.
Proof.
  intros Hw Hws. destruct (decide (n0 = net)) as [->|Hn].
  - rewrite fn_lookup_insert. simpl. by apply Hws.
  - by rewrite fn_lookup_insert_ne.
Qed.

Lemma pips_inv_step (s : State) o s' :
  run_op s o = Some s' → pips_inv s → pips_inv s'.
Proof.
  intros Hrun Hinv.
  destruct o as [b0 c0 st|b0|w0 n0 st|w0|p0 n0 st|p0| |]; simpl in *.
  - apply bindBel_Some in Hrun as (_ & _ & ->). exact Hinv.
  - apply unbindBel_Some in Hrun as (_ & c0 & _ & ->). exact Hinv.
  - apply bindWire_Some in Hrun as (_ & Hfree & ->).
    intros p net Hbound.
    destruct (Hinv p net Hbound) as (Hnn & Hdst & Hdrv).
    assert (w0 ≠ getPipDstWire p) as Hw by congruence.
    rewrite getBoundWireNet_entry. simpl.
    rewrite entry_insert, decide_False by done.
    split_and!; [done..|].
    rewrite (wires_insert_other _ _ _ w0); [done..|].
    intros x Hx. by rewrite lookup_insert_ne.
  - apply unbindWire_Some in Hrun as (_ & n0 & it & Hn0 & Hit & ->).
    intros p net. rewrite getBoundPipNet_entry. simpl. intros Hbound.
    assert (getBoundPipNet s p = Some net ∧
            (pip it ≠ PipId_null → pip it ≠ p)) as [Hold Hne].
    { case_decide as Hdrv.
      - rewrite entry_insert in Hbound. case_decide; naive_solver.
      - naive_solver. }
    destruct (Hinv p net Hold) as (Hnn & Hdst & Hp).
    assert (w0 ≠ getPipDstWire p) as Hw.
    { intros ->. rewrite Hdst in Hn0. injection Hn0 as ->.
      rewrite Hit in Hp. simpl in Hp. injection Hp as Hp.
      apply Hne; congruence. }
    rewrite getBoundWireNet_entry. simpl.
    rewrite entry_insert, decide_False by done.
    split_and!; [done..|].
    rewrite (wires_insert_other _ _ _ w0); [done..|].
    intros x Hx. by rewrite lookup_delete_ne.
  - apply bindPip_Some in Hrun as (Hp0 & Hfree & Hdfree & ->).
    intros p net. rewrite getBoundPipNet_entry, getBoundWireNet_entry. simpl.
    rewrite entry_insert. case_decide as Hp.
    + intros [= <-]. subst p.
      rewrite entry_insert, decide_True by done.
      rewrite fn_lookup_insert. simpl. by rewrite lookup_insert_eq.
    + intros Hbound.
      destruct (Hinv p net Hbound) as (Hnn & Hdst & Hdrv).
      assert (getPipDstWire p0 ≠ getPipDstWire p) as Hw by congruence.
      rewrite entry_insert, decide_False by done.
      split_and!; [done..|].
      rewrite (wires_insert_other _ _ _ (getPipDstWire p0)); [done..|].
      intros x Hx. by rewrite lookup_insert_ne.
  - apply unbindPip_Some in Hrun as (Hp0 & n0 & Hn0 & _ & ->).
    intros p net. rewrite getBoundPipNet_entry, getBoundWireNet_entry. simpl.
    rewrite entry_insert. case_decide as Hp; [done|].
    intros Hbound.
    destruct (Hinv p net Hbound) as (Hnn & Hdst & Hdrv).
    destruct (Hinv p0 n0 Hn0) as (_ & Hdst0 & Hdrv0).
    assert (getPipDstWire p0 ≠ getPipDstWire p) as Hw.
    { intros Heq. rewrite Heq in Hdst0, Hdrv0. congruence. }
    rewrite entry_insert, decide_False by done.
    split_and!; [done..|].
    rewrite (wires_insert_other _ _ _ (getPipDstWire p0)); [done..|].
    intros x Hx. by rewrite lookup_delete_ne.
  - injection Hrun as <-. exact Hinv.
  - apply init_bel_buckets_Some in Hrun.
    eapply pips_inv_frame; [| | |done]; naive_solver.
Qed.

Lemma bels_inv_new cs ns : bels_inv (BaseArch_new cs ns : State).
Proof. intros b cell. rewrite getBoundBelCell_entry. simpl. by rewrite entry_empty. Qed.

Lemma wires_consistent_new cs ns : wires_consistent (BaseArch_new cs ns : State).
Proof. intros w net. rewrite getBoundWireNet_entry. simpl. by rewrite entry_empty. Qed.

Lemma pips_inv_new cs ns : pips_inv (BaseArch_new cs ns : State).
Proof. intros p net. rewrite getBoundPipNet_entry. simpl. by rewrite entry_empty. Qed.

Lemma run_cons (s : State) o ops s_end :
  run s (o :: ops) = Some s_end ↔
  ∃ s', run_op s o = Some s' ∧ run s' ops = Some s_end.
Proof. simpl. destruct (run_op s o); simpl; naive_solver. Qed.

Lemma run_placing_free_cons (s : State) o ops s_end :
  run_placing_free s (o :: ops) = Some s_end ↔
  places_free_cell s o ∧
  ∃ s', run_op s o = Some s' ∧ run_placing_free s' ops = Some s_end.
Proof.
  simpl. case_guard; simpl; [|naive_solver].
  destruct (run_op s o); simpl; naive_solver.
Qed.

Lemma run_placing_free_run (s : State) ops s_end :
  run_placing_free s ops = Some s_end → run s ops = Some s_end.
Proof.
  revert s. induction ops as [|o ops IH]; intros s; [done|].
  rewrite run_placing_free_cons, run_cons. naive_solver.
Qed.

Lemma wires_consistent_run (s : State) ops s_end :
  run s ops = Some s_end → wires_consistent s → wires_consistent s_end.
Proof.
  revert s. induction ops as [|o ops IH]; intros s.
  - by intros [= <-].
  - rewrite run_cons. intros (s' & Hstep & Hrest) Hinv.
    eauto using wires_consistent_step.
Qed.

Lemma pips_inv_run (s : State) ops s_end :
  run s ops = Some s_end → pips_inv s → pips_inv s_end.
Proof.
  revert s. induction ops as [|o ops IH]; intros s.
  - by intros [= <-].
  - rewrite run_cons. intros (s' & Hstep & Hrest) Hinv.
    eauto using pips_inv_step.
Qed.

Lemma bels_inv_run (s : State) ops s_end :
  run_placing_free s ops = Some s_end → bels_inv s → bels_inv s_end.
Proof.
  revert s. induction ops as [|o ops IH]; intros s.
  - by intros [= <-].
  - rewrite run_placing_free_cons. intros (Hfree & s' & Hstep & Hrest) Hinv.
    eauto using bels_inv_step.
Qed.

(** C1 (as amended): in every run from a fresh architecture in which no call
    is fatal and [bindBel] is only applied to cells that have no bel at that
    time, the final state is consistent: the cell of a bound bel has that
    bel as its current bel, the net of a bound wire has an entry for it, the
    net of a bound pip records it as driver of its destination wire; a
    resource has one owner, and a cell owns at most one bel. *)
Theorem bindings_consistent_when_placing_free cs ns ops (s : State) :
  run_placing_free (BaseArch_new cs ns) ops = Some s →
  bindings_consistent s ∧
  (∀ b c1 c2, getBoundBelCell s b = Some c1 → getBoundBelCell s b = Some c2 →
     c1 = c2) ∧
  (∀ w n1 n2, getBoundWireNet s w = Some n1 → getBoundWireNet s w = Some n2 →
     n1 = n2) ∧
  (∀ p n1 n2, getBoundPipNet s p = Some n1 → getBoundPipNet s p = Some n2 →
     n1 = n2) ∧
  (∀ b1 b2 cell, getBoundBelCell s b1 = Some cell →
     getBoundBelCell s b2 = Some cell → b1 = b2).
Proof.
  intros Hrun.
  pose proof (bels_inv_run _ _ _ Hrun (bels_inv_new cs ns)) as Hb.
  apply run_placing_free_run in Hrun.
  pose proof (wires_consistent_run _ _ _ Hrun (wires_consistent_new cs ns)) as Hw.
  pose proof (pips_inv_run _ _ _ Hrun (pips_inv_new cs ns)) as Hp.
  split_and!.
  - split_and!; [|done|].
    + intros b cell Hbound. by apply Hb.
    + intros p net Hbound. by apply Hp.
  - congruence.
  - congruence.
  - congruence.
  - intros b1 b2 cell Hb1 Hb2.
    apply Hb in Hb1 as [_ Hb1]. apply Hb in Hb2 as [_ Hb2]. congruence.
Qed.

(** C8: in every state that a run without a fatal call reaches from a fresh
    architecture, the destination wire of a bound pip is bound to the net of
    the pip. *)
Theorem bound_pip_dst_wire_same_net (s : State) :
  reachable s → pip_dst_coupled s.
Proof.
  intros (cs & ns & ops & Hrun) p net Hbound.
  by apply (pips_inv_run _ _ _ Hrun (pips_inv_new cs ns)).
Qed.

(** ** Resources that were never bound *)

Lemma unbound_bel_step (s : State) o s' b :
  run_op s o = Some s' → ¬ binds_bel b o →
  getBoundBelCell s b = nullptr → getBoundBelCell s' b = nullptr.
Proof.
  intros Hrun Hnb. rewrite !getBoundBelCell_entry.
  destruct o as [b0 c0 st|b0|w0 n0 st|w0|p0 n0 st|p0| |]; simpl in *.
  - apply bindBel_Some in Hrun as (_ & _ & ->). simpl.
    rewrite entry_insert. by rewrite decide_False.
  - apply unbindBel_Some in Hrun as (_ & c0 & _ & ->). simpl.
    rewrite entry_insert. by case_decide.
  - by apply bindWire_Some in Hrun as (_ & _ & ->).
  - by apply unbindWire_Some in Hrun as (_ & net & it & _ & _ & ->).
  - by apply bindPip_Some in Hrun as (_ & _ & _ & ->).
  - by apply unbindPip_Some in Hrun as (_ & net & _ & _ & ->).
  - by injection Hrun as <-.
  - apply init_bel_buckets_Some in Hrun as (_ & -> & _). done.
Qed.

Lemma unbound_wire_step (s : State) o s' w :
  run_op s o = Some s' → ¬ binds_wire w o →
  getBoundWireNet s w = nullptr → getBoundWireNet s' w = nullptr.
Proof.
  intros Hrun Hnb. rewrite !getBoundWireNet_entry.
  destruct o as [b0 c0 st|b0|w0 n0 st|w0|p0 n0 st|p0| |]; simpl in *.
  - by apply bindBel_Some in Hrun as (_ & _ & ->).
  - by apply unbindBel_Some in Hrun as (_ & c0 & _ & ->).
  - apply bindWire_Some in Hrun as (_ & _ & ->). simpl.
    rewrite entry_insert. by rewrite decide_False.
  - apply unbindWire_Some in Hrun as (_ & net & it & _ & _ & ->). simpl.
    rewrite entry_insert. by case_decide.
  - apply bindPip_Some in Hrun as (_ & _ & _ & ->). simpl.
    rewrite entry_insert. by rewrite decide_False.
  - apply unbindPip_Some in Hrun as (_ & net & _ & _ & ->). simpl.
    rewrite entry_insert. by case_decide.
  - by injection Hrun as <-.
  - apply init_bel_buckets_Some in Hrun as (_ & _ & -> & _). done.
Qed.

Lemma unbound_pip_step (s : State) o s' p :
  run_op s o = Some s' → ¬ binds_pip p o →
  getBoundPipNet s p = nullptr → getBoundPipNet s' p = nullptr.
Proof.
  intros Hrun Hnb. rewrite !getBoundPipNet_entry.
  destruct o as [b0 c0 st|b0|w0 n0 st|w0|p0 n0 st|p0| |]; simpl in *.
  - by apply bindBel_Some in Hrun as (_ & _ & ->).
  - by apply unbindBel_Some in Hrun as (_ & c0 & _ & ->).
  - by apply bindWire_Some in Hrun as (_ & _ & ->).
  - apply unbindWire_Some in Hrun as (_ & net & it & _ & _ & ->). simpl.
    case_decide; [|done]. rewrite entry_insert. by case_decide.
  - apply bindPip_Some in Hrun as (_ & _ & _ & ->). simpl.
    rewrite entry_insert. by rewrite decide_False.
  - apply unbindPip_Some in Hrun as (_ & net & _ & _ & ->). simpl.
    rewrite entry_insert. by case_decide.
  - by injection Hrun as <-.
  - apply init_bel_buckets_Some in Hrun as (_ & _ & _ & -> & _). done.
Qed.

Lemma unbound_bel_run (s : State) ops s_end b :
  run s ops = Some s_end → Forall (λ o, ¬ binds_bel b o) ops →
  getBoundBelCell s b = nullptr → getBoundBelCell s_end b = nullptr.
Proof.
  intros Hrun Hops. revert s Hrun.
  induction Hops as [|o ops Ho Hops IH]; intros s.
  - by intros [= <-].
  - rewrite run_cons. intros (s' & Hstep & Hrest) Hunb.
    eauto using unbound_bel_step.
Qed.

Lemma unbound_wire_run (s : State) ops s_end w :
  run s ops = Some s_end → Forall (λ o, ¬ binds_wire w o) ops →
  getBoundWireNet s w = nullptr → getBoundWireNet s_end w = nullptr.
Proof.
  intros Hrun Hops. revert s Hrun.
  induction Hops as [|o ops Ho Hops IH]; intros s.
  - by intros [= <-].
  - rewrite run_cons. intros (s' & Hstep & Hrest) Hunb.
    eauto using unbound_wire_step.
Qed.

Lemma unbound_pip_run (s : State) ops s_end p :
  run s ops = Some s_end → Forall (λ o, ¬ binds_pip p o) ops →
  getBoundPipNet s p = nullptr → getBoundPipNet s_end p = nullptr.
Proof.
  intros Hrun Hops. revert s Hrun.
  induction Hops as [|o ops Ho Hops IH]; intros s.
  - by intros [= <-].
  - rewrite run_cons. intros (s' & Hstep & Hrest) Hunb.
    eauto using unbound_pip_step.
Qed.

(** C10: the binding queries are plain functions of the state.  On a fresh
    architecture, where both index accessors are still fatal, every bel, wire
    and pip has no owner and is available; and after any run without a fatal
    call, a bel that no [bindBel] named, a wire that no [bindWire] named and
    no bound pip drove, and a pip that no [bindPip] named still have no owner
    and are available. *)
Theorem never_bound_resources_are_free cs ns ops (s : State) :
  run (BaseArch_new cs ns) ops = Some s →
  let s0 : State := BaseArch_new cs ns in
  (getCellTypes s0 = None ∧ getBelBuckets s0 = None) ∧
  (∀ b, getBoundBelCell s0 b = nullptr ∧ checkBelAvail s0 b = true) ∧
  (∀ w, getBoundWireNet s0 w = nullptr ∧ checkWireAvail s0 w = true) ∧
  (∀ p, getBoundPipNet s0 p = nullptr ∧ checkPipAvail s0 p = true) ∧
  (∀ b, Forall (λ o, ¬ binds_bel b o) ops →
     getBoundBelCell s b = nullptr ∧ checkBelAvail s b = true) ∧
  (∀ w, Forall (λ o, ¬ binds_wire w o) ops →
     getBoundWireNet s w = nullptr ∧ checkWireAvail s w = true) ∧
  (∀ p, Forall (λ o, ¬ binds_pip p o) ops →
     getBoundPipNet s p = nullptr ∧ checkPipAvail s p = true).
Proof.
  intros Hrun s0.
  assert (∀ b, getBoundBelCell s0 b = nullptr) as Hb0.
  { intros b. rewrite getBoundBelCell_entry. apply entry_empty. }
  assert (∀ w, getBoundWireNet s0 w = nullptr) as Hw0.
  { intros w. rewrite getBoundWireNet_entry. apply entry_empty. }
  assert (∀ p, getBoundPipNet s0 p = nullptr) as Hp0.
  { intros p. rewrite getBoundPipNet_entry. apply entry_empty. }
  split_and!; [done|done|..].
  - intros b. split; [done|]. by apply checkBelAvail_spec.
  - intros w. split; [done|]. by apply checkWireAvail_spec.
  - intros p. split; [done|]. by apply checkPipAvail_spec.
  - intros b Hops. rewrite checkBelAvail_spec.
    assert (getBoundBelCell s b = nullptr); [|done].
    eapply unbound_bel_run; eauto.
  - intros w Hops. rewrite checkWireAvail_spec.
    assert (getBoundWireNet s w = nullptr); [|done].
    eapply unbound_wire_run; eauto.
  - intros p Hops. rewrite checkPipAvail_spec.
    assert (getBoundPipNet s p = nullptr); [|done].
    eapply unbound_pip_run; eauto.
Qed.

(** ** The cell-type and bel-bucket indices *)

(** Grouping a list by a key: the groups of a duplicate-free list of keys
    that covers the list hold every element exactly as often as the list. *)
Lemma concat_groups_Permutation {X K} `{EqDecision K} (f : X → K)
    (ks : list K) (l : list X) :
  NoDup ks → (∀ x, x ∈ l → f x ∈ ks) →
  concat ((λ k, filter (λ x, f x = k) l) <$> ks) ≡ₚ l.
Proof.
  intros Hks. revert l. induction Hks as [|k ks Hk Hks IH]; intros l Hl.
  - destruct l as [|x l]; [done|].
    specialize (Hl x). rewrite elem_of_cons, elem_of_nil in Hl. naive_solver.
  - csimpl.
    trans (filter (λ x, f x = k) l ++ filter (λ x, ¬ f x = k) l);
      [|apply filter_app_complement].
    apply Permutation_app_head.
    rewrite <- (IH (filter (λ x, ¬ f x = k) l)).
    + assert (((λ k0, filter (λ x, f x = k0) l) <$> ks) =
              ((λ k0, filter (λ x, f x = k0) (filter (λ x, ¬ f x = k) l)) <$> ks))
        as ->; [|done].
      apply Forall_fmap_ext_1, Forall_forall. intros k' Hk'.
      rewrite list_filter_filter. apply list_filter_iff.
      intros x. split; [|naive_solver]. intros <-. split; [done|].
      by intros <-.
    + intros x [Hx Hin]%list_elem_of_filter.
      specialize (Hl x Hin). rewrite elem_of_cons in Hl. naive_solver.
Qed.

Lemma filter_none {X} (P : X → Prop) `{∀ x, Decision (P x)} (l : list X) :
  (∀ x, x ∈ l → ¬ P x) → filter P l = [].
Proof.
  induction l as [|x l IH]; intros Hl; [done|].
  rewrite filter_cons_False; [|apply Hl; left].
  apply IH. intros y Hy. apply Hl. by right.
Qed.

Lemma sort_ids_Permutation l : sort_ids l ≡ₚ l.
Proof. apply merge_sort_Permutation. Qed.

Lemma sort_ids_StronglySorted l : StronglySorted IdString_le (sort_ids l).
Proof. apply StronglySorted_merge_sort; apply _. Qed.

(** A sorted vector has one possible content for a given set of values. *)
Lemma sort_ids_unique l k :
  StronglySorted IdString_le k → k ≡ₚ l → sort_ids l = k.
Proof.
  intros Hk Hperm.
  apply (StronglySorted_unique IdString_le);
    [apply sort_ids_StronglySorted|done|].
  by rewrite sort_ids_Permutation.
Qed.

Lemma elem_of_bel_type_set bels t :
  t ∈ bel_type_set bels ↔ ∃ b, b ∈ bels ∧ getBelType b = t.
Proof.
  unfold bel_type_set.
  assert (∀ acc : gset IdString,
    t ∈ foldl (λ bel_types b, bel_types ∪ {[ getBelType b ]}) acc bels ↔
    t ∈ acc ∨ ∃ b, b ∈ bels ∧ getBelType b = t) as Hgen.
  { induction bels as [|b bels IH]; intros acc; simpl.
    - setoid_rewrite elem_of_nil. naive_solver.
    - rewrite IH. setoid_rewrite elem_of_cons. set_solver. }
  rewrite Hgen. set_solver.
Qed.

Lemma lookup_create_buckets (bb : gmap IdString (list BelId)) types k :
  foldl (λ bb cell_type, create_bucket bb (getBelBucketForCellType cell_type))
        bb types !! k
  = match bb !! k with
    | Some l => Some l
    | None => if decide (k ∈ types) then Some [] else None
    end.
Proof.
  revert bb. induction types as [|t types IH]; intros bb; simpl.
  - by destruct (bb !! k).
  - rewrite IH. unfold create_bucket, getBelBucketForCellType, getBelBucketByName.
    destruct (bb !! t) as [l|] eqn:Ht.
    + destruct (bb !! k) eqn:Hk; [done|].
      repeat case_decide; set_solver.
    + destruct (decide (t = k)) as [->|Hne].
      * rewrite lookup_insert_eq, Ht. rewrite decide_True; [done|set_solver].
      * rewrite lookup_insert_ne by done. destruct (bb !! k); [done|].
        repeat case_decide; set_solver.
Qed.

Lemma lookup_push_back_bels (bb : gmap IdString (list BelId)) bels k :
  foldl push_back_bel bb bels !! k
  = if decide (k ∈ getBelBucketForBel <$> bels)
    then Some (default [] (bb !! k) ++
               filter (λ b, getBelBucketForBel b = k) bels)
    else bb !! k.
Proof.
  induction bels as [|b bels IH] using rev_ind.
  - by rewrite decide_False by apply not_elem_of_nil.
  - rewrite foldl_snoc, fmap_app, filter_app. unfold push_back_bel at 1.
    destruct (decide (getBelBucketForBel b = k)) as [Hb|Hb].
    + rewrite Hb, lookup_insert_eq, IH.
      rewrite (decide_True (P := k ∈ _ ++ _)) by set_solver.
      rewrite filter_cons_True, filter_nil by done.
      case_decide as Hk; simpl; [by rewrite <- (assoc_L (++))|].
      rewrite filter_none; [done|].
      intros x Hx Hxk. apply Hk. apply list_elem_of_fmap. eauto.
    + rewrite lookup_insert_ne, IH by done.
      rewrite filter_cons_False, filter_nil, app_nil_r by done.
      repeat case_decide; set_solver.
Qed.

Lemma sorted_NoDup_unique (l k : list IdString) :
  StronglySorted IdString_le l → NoDup l →
  StronglySorted IdString_le k → NoDup k →
  (∀ x, x ∈ l ↔ x ∈ k) → l = k.
Proof.
  intros Hl Hdl Hk Hdk Hlk.
  apply (StronglySorted_unique IdString_le); [done..|].
  by apply NoDup_Permutation.
Qed.

(** The vector [cell_types] that [init_cell_types] leaves on a fresh
    architecture. *)
Lemma init_cell_types_new cs ns :
  let types := cell_types (init_cell_types (BaseArch_new cs ns : State)) in
  StronglySorted IdString_le types ∧ NoDup types ∧
  ∀ t, t ∈ types ↔ ∃ b, b ∈ getBels ∧ getBelType b = t.
Proof.
  simpl. split_and!.
  - apply sort_ids_StronglySorted.
  - rewrite sort_ids_Permutation. apply NoDup_elements.
  - intros t. rewrite sort_ids_Permutation, elem_of_elements.
    apply elem_of_bel_type_set.
Qed.

(** The map [bucket_bels] that [init_bel_buckets] builds from an empty map
    and a vector [types] that holds the type of every bel. *)
Lemma lookup_bucket_bels_init (types : list IdString) k :
  (∀ t, t ∈ types ↔ ∃ b, b ∈ getBels ∧ getBelType b = t) →
  foldl push_back_bel
    (foldl (λ bb cell_type, create_bucket bb (getBelBucketForCellType cell_type))
           ∅ types) getBels !! k
  = if decide (k ∈ types)
    then Some (filter (λ b, getBelBucketForBel b = k) getBels)
    else None.
Proof.
  intros Htypes.
  rewrite lookup_push_back_bels, lookup_create_buckets, lookup_empty.
  assert (k ∈ getBelBucketForBel <$> getBels ↔ k ∈ types) as Hk.
  { rewrite Htypes, list_elem_of_fmap. naive_solver. }
  repeat case_decide; naive_solver.
Qed.

(** C9: on a fresh architecture, [init_cell_types] followed by
    [init_bel_buckets] is not fatal and leaves: cell types that are sorted,
    duplicate-free and exactly the types of the bels; bucket ids that are
    sorted and duplicate-free; for every bucket id the bels of that bucket
    in enumeration order; and the buckets taken together hold every bel as
    often as the enumeration does, hence once when the enumeration has no
    duplicate.  For bels A, B, C of types LUT, LUT, FF with FF before LUT,
    the cell types and bucket ids are FF, LUT and the buckets are C and
    A, B. *)
Theorem init_indices_partition_bels cs ns :
  ∃ s2 : State,
    init_bel_buckets (init_cell_types (BaseArch_new cs ns)) = Some s2 ∧
  ∃ types buckets,
    getCellTypes s2 = Some types ∧ getBelBuckets s2 = Some buckets ∧
    (StronglySorted IdString_le types ∧ NoDup types) ∧
    (∀ t, t ∈ types ↔ ∃ b, b ∈ getBels ∧ getBelType b = t) ∧
    (StronglySorted IdString_le buckets ∧ NoDup buckets) ∧
    (∀ k, k ∈ buckets →
       getBelsInBucket s2 k
         = Some (filter (λ b, getBelBucketForBel b = k) getBels)) ∧
    concat ((λ k, default [] (getBelsInBucket s2 k)) <$> buckets) ≡ₚ getBels ∧
    (NoDup getBels →
       NoDup (concat ((λ k, default [] (getBelsInBucket s2 k)) <$> buckets))) ∧
    (∀ A B C FF LUT,
       getBels = [A; B; C] →
       getBelType A = LUT → getBelType B = LUT → getBelType C = FF →
       IdString_le FF LUT → FF ≠ LUT →
       types = [FF; LUT] ∧ buckets = [FF; LUT] ∧
       getBelsInBucket s2 FF = Some [C] ∧
       getBelsInBucket s2 LUT = Some [A; B]).
Proof.
  destruct (init_cell_types_new cs ns) as (Hsorted & Hnodup & Htypes).
  set (s1 := init_cell_types (BaseArch_new cs ns)) in *.
  set (types := cell_types s1) in *.
  eexists. split; [reflexivity|].
  exists types. eexists. split; [reflexivity|]. split; [reflexivity|].
  cbn [bel_buckets bucket_bels getCellTypes cell_types_initialised s1
       init_cell_types BaseArch_new mbind option_bind guard_or].
  set (bb2 := foldl push_back_bel _ getBels).
  assert (∀ k, bb2 !! k = if decide (k ∈ types)
     then Some (filter (λ b, getBelBucketForBel b = k) getBels) else None)
    as Hbb2.
  { intros k. by apply lookup_bucket_bels_init. }
  set (buckets := sort_ids _).
  assert (∀ k, k ∈ buckets ↔ k ∈ types) as Hbuckets.
  { intros k. unfold buckets. rewrite sort_ids_Permutation. simpl.
    rewrite list_elem_of_fmap. split.
    - intros ([k' l] & -> & Hin%elem_of_map_to_list). simpl.
      rewrite Hbb2 in Hin. by case_decide.
    - intros Hk. eexists (k, _). split; [done|].
      apply elem_of_map_to_list. rewrite Hbb2. by rewrite decide_True. }
  assert (NoDup buckets) as Hbnodup.
  { unfold buckets. rewrite sort_ids_Permutation. simpl.
    apply NoDup_fst_map_to_list. }
  assert (∀ k, k ∈ buckets →
    getBelsInBucket
      {| base_bel2cell := ∅; base_wire2net := ∅; base_pip2net := ∅;
         cell_types := types; bel_buckets := buckets; bucket_bels := bb2;
         cell_types_initialised := true; bel_buckets_initialised := true;
         cells := cs; nets := ns; ui_events := [] |} k
    = Some (filter (λ b, getBelBucketForBel b = k) getBels)) as Hget.
  { intros k Hk. unfold getBelsInBucket. simpl.
    rewrite Hbb2. rewrite decide_True; [done|]. by apply Hbuckets. }
  assert (concat ((λ k, default [] (getBelsInBucket
      {| base_bel2cell := ∅; base_wire2net := ∅; base_pip2net := ∅;
         cell_types := types; bel_buckets := buckets; bucket_bels := bb2;
         cell_types_initialised := true; bel_buckets_initialised := true;
         cells := cs; nets := ns; ui_events := [] |} k)) <$> buckets)
     ≡ₚ getBels) as Hperm.
  { rewrite <- (concat_groups_Permutation getBelBucketForBel buckets getBels);
      [|done|].
    - assert (((λ k, default [] (getBelsInBucket _ k)) <$> buckets) =
              ((λ k, filter (λ b, getBelBucketForBel b = k) getBels) <$> buckets))
        as ->; [|done].
      apply Forall_fmap_ext_1, Forall_forall. intros k Hk.
      by rewrite Hget.
    - intros b Hb. apply Hbuckets, Htypes. by exists b. }
  split_and!; try done.
  - apply sort_ids_StronglySorted.
  - intros Hnd. by rewrite Hperm.
  - intros A B C FF LUT Hbels HA HB HC Hle Hne.
    assert (∀ t, t ∈ types ↔ t ∈ [FF; LUT]) as Hmem.
    { intros t. rewrite Htypes, Hbels.
      repeat setoid_rewrite elem_of_cons. setoid_rewrite elem_of_nil.
      naive_solver. }
    assert (StronglySorted IdString_le [FF; LUT]) as Hsc.
    { repeat constructor. done. }
    assert (NoDup [FF; LUT]) as Hnc.
    { apply NoDup_cons. split; [set_solver|]. apply NoDup_singleton. }
    assert (types = [FF; LUT]) as Htl by by apply sorted_NoDup_unique.
    assert (buckets = [FF; LUT]) as Hbl.
    { apply sorted_NoDup_unique; [apply sort_ids_StronglySorted|done..|].
      intros t. by rewrite Hbuckets. }
    split_and!; [done|done|..].
    + rewrite Hget by (rewrite Hbl; set_solver).
      rewrite Hbels. unfold getBelBucketForBel, getBelBucketForCellType,
        getBelBucketByName.
      rewrite filter_cons_False by congruence.
      rewrite filter_cons_False by congruence.
      by rewrite filter_cons_True by done.
    + rewrite Hget by (rewrite Hbl; set_solver).
      rewrite Hbels. unfold getBelBucketForBel, getBelBucketForCellType,
        getBelBucketByName.
      rewrite filter_cons_True by done.
      rewrite filter_cons_True by done.
      by rewrite filter_cons_False by congruence.
Qed.

End Properties.

(** * Further properties of the binding protocol and the indices *)

Section MoreProperties.
Context `{ArchAPI BelId WireId PipId IdString}.

#[local] Abbreviation State := (BaseArch BelId WireId PipId IdString).

(** ** Round trips *)

(** X1: [bindWire] on a valid free wire records the net as owner and a
    wire-set entry without driver and with the given strength; the
    [unbindWire] that follows gives back the owner of every wire, the pip
    map, and the wire-sets, the entry of the wire being erased from the net
    (also an entry that was there before the bind); two notifications were
    made. *)
Theorem bindWire_then_unbindWire (s : State) w net st :
  w ≠ WireId_null →
  getBoundWireNet s w = nullptr →
  ∃ s1, bindWire s w net st = Some s1 ∧
    checkWireAvail s1 w = false ∧
    getBoundWireNet s1 w = Some net ∧
    wires (nets s1 net) !! w = Some {| pip := PipId_null; strength := st |} ∧
    ∃ s2, unbindWire s1 w = Some s2 ∧
      (∀ w', getBoundWireNet s2 w' = getBoundWireNet s w') ∧
      base_pip2net s2 = base_pip2net s ∧
      wires (nets s2 net) = delete w (wires (nets s net)) ∧
      (∀ net', net' ≠ net → nets s2 net' = nets s net') ∧
      ui_events s2 = ui_events s ++ [RefreshUiWire w; RefreshUiWire w].
Proof.
  intros Hw Hfree.
  eexists. split; [by apply bindWire_Some|].
  match goal with |- context [checkWireAvail ?x w = false] => set (s1 := x) end.
  assert (getBoundWireNet s1 w = Some net) as Hs1.
  { rewrite getBoundWireNet_entry. simpl. by rewrite entry_insert, decide_True. }
  assert (wires (nets s1 net) !! w
          = Some {| pip := PipId_null; strength := st |}) as Hit.
  { simpl. rewrite fn_lookup_insert. simpl. by rewrite lookup_insert_eq. }
  split_and!; [|done|done|].
  { unfold checkWireAvail. by rewrite Hs1. }
  eexists. split.
  { apply unbindWire_Some. split; [done|].
    exists net, {| pip := PipId_null; strength := st |}. by split_and!. }
  simpl. rewrite decide_False by (by intros []).
  split_and!; [|done| | |].
  - intros w'. rewrite !getBoundWireNet_entry. simpl.
    rewrite !entry_insert. case_decide; [|done]. subst w'.
    by rewrite <- getBoundWireNet_entry.
  - rewrite !fn_lookup_insert. simpl. by rewrite delete_insert_eq.
  - intros net' Hne. by rewrite !fn_lookup_insert_ne.
  - by rewrite <- (assoc_L (++)).
Qed.

(** X2: [bindPip] on a valid free pip with a free destination wire, followed
    by [unbindPip], gives back the owner of every pip and every wire and the
    wire-sets, the entry of the destination wire being erased from the net;
    cells and the notification log are as before. *)
Theorem bindPip_then_unbindPip (s : State) p net st :
  p ≠ PipId_null →
  getBoundPipNet s p = nullptr →
  getBoundWireNet s (getPipDstWire p) = nullptr →
  ∃ s1 s2, bindPip s p net st = Some s1 ∧ unbindPip s1 p = Some s2 ∧
    (∀ p', getBoundPipNet s2 p' = getBoundPipNet s p') ∧
    (∀ w', getBoundWireNet s2 w' = getBoundWireNet s w') ∧
    wires (nets s2 net) = delete (getPipDstWire p) (wires (nets s net)) ∧
    (∀ net', net' ≠ net → nets s2 net' = nets s net') ∧
    cells s2 = cells s ∧
    ui_events s2 = ui_events s.
Proof.
  intros Hp Hfree Hdst.
  eexists. eexists. split; [by apply bindPip_Some|].
  split.
  { apply unbindPip_Some. split; [done|]. exists net.
    rewrite getBoundPipNet_entry, getBoundWireNet_entry. simpl.
    rewrite !entry_insert, !decide_True by done. by split_and!. }
  simpl. split_and!; [| | | |done|done].
  - intros p'. rewrite !getBoundPipNet_entry. simpl.
    rewrite !entry_insert. case_decide; [|done]. subst p'.
    by rewrite <- getBoundPipNet_entry.
  - intros w'. rewrite !getBoundWireNet_entry. simpl.
    rewrite !entry_insert. case_decide as Hw'; [|done]. rewrite <- Hw'.
    by rewrite <- getBoundWireNet_entry.
  - rewrite !fn_lookup_insert. simpl. by rewrite delete_insert_eq.
  - intros net' Hne. by rewrite !fn_lookup_insert_ne.
Qed.

(** ** When a bind call succeeds *)

(** X3: [bindBel] succeeds exactly on a valid bel that [checkBelAvail]
    reports free, and [bindWire] exactly on a valid wire that
    [checkWireAvail] reports free.  [bindPip] needs more than
    [checkPipAvail]: it succeeds exactly when the pip is valid and free and
    its destination wire is free, so on a free pip whose destination wire has
    an owner it is fatal although no conflicting net and no conflicting wire
    is reported for the pip. *)
Theorem bind_succeeds_iff_available (s : State) :
  (∀ b cell st,
     is_Some (bindBel s b cell st) ↔ b ≠ BelId_null ∧ checkBelAvail s b = true) ∧
  (∀ w net st,
     is_Some (bindWire s w net st) ↔
     w ≠ WireId_null ∧ checkWireAvail s w = true) ∧
  (∀ p net st,
     is_Some (bindPip s p net st) ↔
     p ≠ PipId_null ∧ checkPipAvail s p = true ∧
     checkWireAvail s (getPipDstWire p) = true) ∧
  (∀ p net st,
     checkPipAvail s p = true →
     checkWireAvail s (getPipDstWire p) = false →
     bindPip s p net st = None ∧
     getConflictingPipNet s p = nullptr ∧
     getConflictingPipWire s p = WireId_null).
Proof.
  split_and!.
  - intros b cell st. rewrite checkBelAvail_spec. split.
    + intros [s' Hs']. apply bindBel_Some in Hs'. naive_solver.
    + intros [Hb Hfree]. eexists. by apply bindBel_Some.
  - intros w net st. rewrite checkWireAvail_spec. split.
    + intros [s' Hs']. apply bindWire_Some in Hs'. naive_solver.
    + intros [Hw Hfree]. eexists. by apply bindWire_Some.
  - intros p net st. rewrite checkPipAvail_spec, checkWireAvail_spec. split.
    + intros [s' Hs']. apply bindPip_Some in Hs'. naive_solver.
    + intros (Hp & Hfree & Hdst). eexists. by apply bindPip_Some.
  - intros p net st Hfree Hdst. split_and!; [|by apply checkPipAvail_spec|done].
    apply eq_None_not_Some. intros [s' Hs'].
    apply bindPip_Some in Hs' as (_ & _ & Hw & _).
    apply checkWireAvail_spec in Hw. congruence.
Qed.

(** ** Placing a cell again *)

(** X4: [unbindBel] leaves the cell that owned the bel without a current bel,
    touches no other cell, and the bel can then be bound to any cell. *)
Theorem unbindBel_frees_cell_and_bel (s : State) b cell s' :
  unbindBel s b = Some s' →
  getBoundBelCell s b = Some cell →
  bel (cells s' cell) = BelId_null ∧
  (∀ cell', cell' ≠ cell → cells s' cell' = cells s cell') ∧
  (∀ b', b' ≠ b → getBoundBelCell s' b' = getBoundBelCell s b') ∧
  ∀ cell' st, is_Some (bindBel s' b cell' st).
Proof.
  intros Hrun Hcell.
  apply unbindBel_Some in Hrun as (Hb & c0 & Hc0 & ->).
  assert (c0 = cell) as -> by congruence.
  split_and!.
  - simpl. by rewrite fn_lookup_insert.
  - intros cell' Hne. simpl. by rewrite fn_lookup_insert_ne.
  - intros b' Hne. rewrite !getBoundBelCell_entry. simpl.
    by rewrite entry_insert, decide_False.
  - intros cell' st. eexists. apply bindBel_Some. split_and!; [done| |done].
    rewrite getBoundBelCell_entry. simpl.
    by rewrite entry_insert, decide_True.
Qed.

(** X5: [bindBel] does not look at the cell.  Given a cell that owns bel
    [b1], binding it to a valid free bel [b2] succeeds and leaves both bels
    bound to the cell, whose current bel is then [b2]; an [unbindBel] of [b1]
    after that clears the current bel of the cell while [b2] stays bound to
    it. *)
Theorem bindBel_keeps_previous_bel (s : State) b1 b2 cell st :
  getBoundBelCell s b1 = Some cell →
  b1 ≠ BelId_null →
  b2 ≠ BelId_null →
  getBoundBelCell s b2 = nullptr →
  ∃ s1 s2, bindBel s b2 cell st = Some s1 ∧
    getBoundBelCell s1 b1 = Some cell ∧
    getBoundBelCell s1 b2 = Some cell ∧
    bel (cells s1 cell) = b2 ∧
    unbindBel s1 b1 = Some s2 ∧
    getBoundBelCell s2 b2 = Some cell ∧
    bel (cells s2 cell) = BelId_null.
Proof.
  intros Hb1 Hn1 Hn2 Hfree.
  assert (b2 ≠ b1) as Hne by congruence.
  eexists. eexists. split; [by apply bindBel_Some|].
  match goal with |- context [unbindBel ?x b1 = _] => set (s1 := x) end.
  assert (getBoundBelCell s1 b1 = Some cell) as Hs1.
  { rewrite getBoundBelCell_entry. simpl.
    by rewrite entry_insert, decide_False. }
  split_and!; [done| | | | |].
  - rewrite getBoundBelCell_entry. simpl.
    by rewrite entry_insert, decide_True.
  - simpl. by rewrite fn_lookup_insert.
  - apply unbindBel_Some. split; [done|]. by exists cell.
  - rewrite getBoundBelCell_entry. simpl.
    rewrite entry_insert, decide_False by done.
    by rewrite entry_insert, decide_True.
  - simpl. by rewrite fn_lookup_insert.
Qed.

(** ** Calls that cannot be repeated *)

(** X6: a bind cannot follow a successful bind of the same resource, and an
    unbind cannot follow a successful unbind of it: the second call is
    fatal, whatever its other arguments. *)
Theorem second_bind_or_unbind_is_fatal (s s' : State) :
  (∀ b cell st cell' st',
     bindBel s b cell st = Some s' → bindBel s' b cell' st' = None) ∧
  (∀ w net st net' st',
     bindWire s w net st = Some s' → bindWire s' w net' st' = None) ∧
  (∀ p net st net' st',
     bindPip s p net st = Some s' → bindPip s' p net' st' = None) ∧
  (∀ b, unbindBel s b = Some s' → unbindBel s' b = None) ∧
  (∀ w, unbindWire s w = Some s' → unbindWire s' w = None) ∧
  (∀ p, unbindPip s p = Some s' → unbindPip s' p = None).
Proof.
  split_and!.
  - intros b cell st cell' st' Hrun.
    apply bindBel_Some in Hrun as (_ & _ & ->).
    apply eq_None_not_Some. intros [s2 Hs2].
    apply bindBel_Some in Hs2 as (_ & Hfree & _).
    rewrite getBoundBelCell_entry in Hfree. simpl in Hfree.
    by rewrite entry_insert, decide_True in Hfree.
  - intros w net st net' st' Hrun.
    apply bindWire_Some in Hrun as (_ & _ & ->).
    apply eq_None_not_Some. intros [s2 Hs2].
    apply bindWire_Some in Hs2 as (_ & Hfree & _).
    rewrite getBoundWireNet_entry in Hfree. simpl in Hfree.
    by rewrite entry_insert, decide_True in Hfree.
  - intros p net st net' st' Hrun.
    apply bindPip_Some in Hrun as (_ & _ & _ & ->).
    apply eq_None_not_Some. intros [s2 Hs2].
    apply bindPip_Some in Hs2 as (_ & Hfree & _).
    rewrite getBoundPipNet_entry in Hfree. simpl in Hfree.
    by rewrite entry_insert, decide_True in Hfree.
  - intros b Hrun.
    apply unbindBel_Some in Hrun as (_ & c0 & _ & ->).
    apply eq_None_not_Some. intros [s2 Hs2].
    apply unbindBel_Some in Hs2 as (_ & c1 & Hc1 & _).
    rewrite getBoundBelCell_entry in Hc1. simpl in Hc1.
    by rewrite entry_insert, decide_True in Hc1.
  - intros w Hrun.
    apply unbindWire_Some in Hrun as (_ & n0 & it & _ & _ & ->).
    apply eq_None_not_Some. intros [s2 Hs2].
    apply unbindWire_Some in Hs2 as (_ & n1 & it1 & Hn1 & _).
    rewrite getBoundWireNet_entry in Hn1. simpl in Hn1.
    by rewrite entry_insert, decide_True in Hn1.
  - intros p Hrun.
    apply unbindPip_Some in Hrun as (_ & n0 & _ & _ & ->).
    apply eq_None_not_Some. intros [s2 Hs2].
    apply unbindPip_Some in Hs2 as (_ & n1 & Hn1 & _).
    rewrite getBoundPipNet_entry in Hn1. simpl in Hn1.
    by rewrite entry_insert, decide_True in Hn1.
Qed.

(** X7: a pip and its destination wire are released by one call, not two.
    After an [unbindWire] whose wire-set entry named the driver [p],
    [unbindPip] of [p] is fatal; after an [unbindPip] of [p], [unbindWire] of
    the destination wire of [p] is fatal. *)
Theorem release_pip_or_dst_wire_not_both (s s' : State) :
  (∀ w net it,
     getBoundWireNet s w = Some net →
     wires (nets s net) !! w = Some it →
     pip it ≠ PipId_null →
     unbindWire s w = Some s' →
     unbindPip s' (pip it) = None) ∧
  (∀ p, unbindPip s p = Some s' → unbindWire s' (getPipDstWire p) = None).
Proof.
  split.
  - intros w net it Hnet Hit Hdrv Hrun.
    apply unbindWire_Some in Hrun as (_ & n0 & it0 & Hn0 & Hit0 & ->).
    assert (n0 = net) as -> by congruence.
    assert (it0 = it) as -> by congruence.
    apply eq_None_not_Some. intros [s2 Hs2].
    apply unbindPip_Some in Hs2 as (_ & n1 & Hn1 & _).
    rewrite getBoundPipNet_entry in Hn1. simpl in Hn1.
    rewrite decide_True in Hn1 by done.
    by rewrite entry_insert, decide_True in Hn1.
  - intros p Hrun.
    apply unbindPip_Some in Hrun as (_ & n0 & _ & _ & ->).
    apply eq_None_not_Some. intros [s2 Hs2].
    apply unbindWire_Some in Hs2 as (_ & n1 & it1 & Hn1 & _).
    rewrite getBoundWireNet_entry in Hn1. simpl in Hn1.
    by rewrite entry_insert, decide_True in Hn1.
Qed.

(** ** A pip whose destination is the null wire *)

(** X8: [bindPip] does not check the destination wire against the null
    wire.  For a valid free pip whose destination is the null wire, and with
    the null wire free, [bindPip] succeeds and gives the null wire an owner;
    [unbindWire] of the null wire is fatal, and [unbindPip] is the call that
    releases it. *)
Theorem bindPip_can_bind_null_wire (s : State) p net st :
  p ≠ PipId_null →
  getPipDstWire p = WireId_null →
  getBoundPipNet s p = nullptr →
  getBoundWireNet s WireId_null = nullptr →
  ∃ s1 s2, bindPip s p net st = Some s1 ∧
    getBoundWireNet s1 WireId_null = Some net ∧
    checkWireAvail s1 WireId_null = false ∧
    unbindWire s1 WireId_null = None ∧
    unbindPip s1 p = Some s2 ∧
    getBoundWireNet s2 WireId_null = nullptr.
Proof.
  intros Hp Hdst Hfree Hwfree.
  eexists. eexists. split.
  { apply bindPip_Some. rewrite ?Hdst. by split_and!. }
  match goal with |- context [unbindPip ?x p = _] => set (s1 := x) end.
  assert (getBoundWireNet s1 WireId_null = Some net) as Hs1.
  { rewrite getBoundWireNet_entry. simpl. rewrite ?Hdst.
    by rewrite entry_insert, decide_True. }
  split_and!; [done| | | |].
  - unfold checkWireAvail. by rewrite Hs1.
  - apply eq_None_not_Some. intros [s2 Hs2].
    apply unbindWire_Some in Hs2. naive_solver.
  - apply unbindPip_Some. split; [done|]. exists net. split_and!; [|by rewrite ?Hdst, Hs1|done].
    rewrite getBoundPipNet_entry. simpl.
    by rewrite entry_insert, decide_True.
  - rewrite getBoundWireNet_entry. simpl. rewrite ?Hdst.
    by rewrite entry_insert, decide_True.
Qed.

(** ** What a run leaves alone, and what it notifies *)

Lemma elem_of_concat {X} (x : X) (ls : list (list X)) :
  x ∈ concat ls ↔ ∃ l, x ∈ l ∧ l ∈ ls.
Proof.
  induction ls as [|l ls IH]; simpl.
  - rewrite elem_of_nil. setoid_rewrite elem_of_nil. naive_solver.
  - rewrite elem_of_app, IH. setoid_rewrite elem_of_cons. naive_solver.
Qed.

Lemma run_op_frame (s : State) o s' :
  run_op s o = Some s' →
  (op_kind o ≠ Placement →
     base_bel2cell s' = base_bel2cell s ∧ cells s' = cells s) ∧
  (op_kind o ≠ Routing →
     base_wire2net s' = base_wire2net s ∧ base_pip2net s' = base_pip2net s ∧
     nets s' = nets s) ∧
  (op_kind o ≠ Indexing →
     cell_types s' = cell_types s ∧ bel_buckets s' = bel_buckets s ∧
     bucket_bels s' = bucket_bels s ∧
     cell_types_initialised s' = cell_types_initialised s ∧
     bel_buckets_initialised s' = bel_buckets_initialised s) ∧
  ui_events s' = ui_events s ++ notifications o.
Proof.
  intros Hrun.
  destruct o as [b0 c0 st|b0|w0 n0 st|w0|p0 n0 st|p0| |]; simpl in *.
  - apply bindBel_Some in Hrun as (_ & _ & ->). by split_and!.
  - apply unbindBel_Some in Hrun as (_ & c0 & _ & ->). by split_and!.
  - apply bindWire_Some in Hrun as (_ & _ & ->). by split_and!.
  - apply unbindWire_Some in Hrun as (_ & net & it & _ & _ & ->). by split_and!.
  - apply bindPip_Some in Hrun as (_ & _ & _ & ->).
    rewrite app_nil_r. by split_and!.
  - apply unbindPip_Some in Hrun as (_ & net & _ & _ & ->).
    rewrite app_nil_r. by split_and!.
  - injection Hrun as <-. rewrite app_nil_r. by split_and!.
  - apply init_bel_buckets_Some in Hrun. rewrite app_nil_r. naive_solver.
Qed.

(** X9: a run changes only the tables of the kinds of call it contains.
    Without bel calls the bel map and the cells are as before; without wire
    and pip calls the wire map, the pip map and the nets are as before;
    without index-building calls the two indices and their flags are as
    before, so the three index accessors answer as before. *)
Theorem run_changes_only_its_tables (s : State) ops s' :
  run s ops = Some s' →
  (Forall (λ o, op_kind o ≠ Placement) ops →
     base_bel2cell s' = base_bel2cell s ∧ cells s' = cells s) ∧
  (Forall (λ o, op_kind o ≠ Routing) ops →
     base_wire2net s' = base_wire2net s ∧ base_pip2net s' = base_pip2net s ∧
     nets s' = nets s) ∧
  (Forall (λ o, op_kind o ≠ Indexing) ops →
     getCellTypes s' = getCellTypes s ∧ getBelBuckets s' = getBelBuckets s ∧
     ∀ bucket, getBelsInBucket s' bucket = getBelsInBucket s bucket).
Proof.
  revert s. induction ops as [|o ops IH]; intros s.
  - intros [= <-]. by split_and!.
  - rewrite run_cons. intros (s1 & Hstep & Hrest).
    destruct (run_op_frame _ _ _ Hstep) as (Hp & Hr & Hi & _).
    destruct (IH _ Hrest) as (IHp & IHr & IHi).
    split_and!.
    + intros [Ho Hops]%Forall_cons. destruct (Hp Ho), (IHp Hops). split; congruence.
    + intros [Ho Hops]%Forall_cons.
      destruct (Hr Ho) as (?&?&?), (IHr Hops) as (?&?&?). split_and!; congruence.
    + intros [Ho Hops]%Forall_cons.
      destruct (Hi Ho) as (Ht & Hb & Hbb & Hf1 & Hf2), (IHi Hops) as (-> & -> & Hbk).
      unfold getCellTypes, getBelBuckets. rewrite Ht, Hb, Hf1, Hf2.
      split_and!; [done..|]. intros bucket. rewrite Hbk.
      unfold getBelsInBucket. by rewrite Hbb, Hf2.
Qed.

(** X10: the notification log after a run is the log before it followed by
    one [refreshUiBel] for every bel call and one [refreshUiWire] for every
    wire call of the run, in call order; pip calls and index-building calls
    add nothing, so a run never adds a [refreshUiPip]. *)
Theorem run_notifications (s : State) ops s' :
  run s ops = Some s' →
  ui_events s' = ui_events s ++ concat (notifications <$> ops) ∧
  ∀ p, RefreshUiPip p ∈ ui_events s' → RefreshUiPip p ∈ ui_events s.
Proof.
  intros Hrun.
  assert (ui_events s' = ui_events s ++ concat (notifications <$> ops)) as Hlog.
  { revert s Hrun. induction ops as [|o ops IH]; intros s.
    - intros [= <-]. simpl. by rewrite app_nil_r.
    - rewrite run_cons. intros (s1 & Hstep & Hrest).
      destruct (run_op_frame _ _ _ Hstep) as (_ & _ & _ & Hui).
      rewrite (IH _ Hrest), Hui. csimpl. by rewrite <- (assoc_L (++)). }
  split; [done|].
  intros p. rewrite Hlog, elem_of_app. intros [Hin|Hin]; [done|].
  apply elem_of_concat in Hin as (evs & Hin & Hevs).
  apply list_elem_of_fmap in Hevs as (o & -> & _).
  destruct o; simpl in Hin; set_solver.
Qed.

(** ** Invariants of reachable states *)

Lemma null_bel_unbound_step (s : State) o s' :
  run_op s o = Some s' →
  getBoundBelCell s BelId_null = nullptr →
  getBoundBelCell s' BelId_null = nullptr.
Proof.
  intros Hrun. apply (unbound_bel_step _ _ _ _ Hrun).
  destruct o; simpl; try tauto. intros ->.
  apply bindBel_Some in Hrun. naive_solver.
Qed.

Lemma null_bel_unbound_run (s : State) ops s' :
  run s ops = Some s' →
  getBoundBelCell s BelId_null = nullptr →
  getBoundBelCell s' BelId_null = nullptr.
Proof.
  revert s. induction ops as [|o ops IH]; intros s.
  - by intros [= <-].
  - rewrite run_cons. intros (s1 & Hstep & Hrest) Hnull.
    eauto using null_bel_unbound_step.
Qed.

(** X11: in a state reached from a fresh architecture the null bel and the
    null pip have no owner (the null wire can have one, through a pip that
    drives it), and every bound bel and pip is a valid handle. *)
Theorem null_bel_and_pip_never_bound (s : State) :
  reachable s →
  getBoundBelCell s BelId_null = nullptr ∧
  getBoundPipNet s PipId_null = nullptr ∧
  (∀ b cell, getBoundBelCell s b = Some cell → b ≠ BelId_null) ∧
  (∀ p net, getBoundPipNet s p = Some net → p ≠ PipId_null).
Proof.
  intros (cs & ns & ops & Hrun).
  pose proof (pips_inv_run _ _ _ Hrun (pips_inv_new cs ns)) as Hp.
  assert (getBoundBelCell s BelId_null = nullptr) as Hb.
  { apply (null_bel_unbound_run _ _ _ Hrun).
    rewrite getBoundBelCell_entry. apply entry_empty. }
  assert (∀ p net, getBoundPipNet s p = Some net → p ≠ PipId_null) as Hp'.
  { intros p net Hbound. by destruct (Hp _ _ Hbound) as [Hvalid _]. }
  split_and!; [done| |congruence|done].
  destruct (getBoundPipNet s PipId_null) as [net|] eqn:Hnull; [|done].
  by destruct (Hp' _ _ Hnull).
Qed.

(** X12: two bound pips never share a destination wire: a wire has at most
    one bound driver. *)
Theorem bound_pips_have_distinct_dst_wires (s : State) p1 p2 n1 n2 :
  reachable s →
  getBoundPipNet s p1 = Some n1 →
  getBoundPipNet s p2 = Some n2 →
  getPipDstWire p1 = getPipDstWire p2 →
  p1 = p2 ∧ n1 = n2.
Proof.
  intros (cs & ns & ops & Hrun) Hb1 Hb2 Hdst.
  pose proof (pips_inv_run _ _ _ Hrun (pips_inv_new cs ns)) as Hp.
  destruct (Hp _ _ Hb1) as (_ & Hw1 & Hd1).
  destruct (Hp _ _ Hb2) as (_ & Hw2 & Hd2).
  rewrite Hdst in Hw1, Hd1.
  assert (n1 = n2) as -> by congruence.
  split; [|done]. congruence.
Qed.

Lemma wire_sets_exact_frame (s s' : State) :
  base_pip2net s' = base_pip2net s → base_wire2net s' = base_wire2net s →
  nets s' = nets s →
  wire_sets_exact s → wire_sets_exact s'.
Proof.
  intros Hp Hw Hn Hinv net w it.
  rewrite getBoundPipNet_entry, getBoundWireNet_entry, Hp, Hw, Hn.
  apply Hinv.
Qed.

Lemma wire_sets_exact_step (s : State) o s' :
  run_op s o = Some s' → pips_inv s →
  wire_sets_exact s → wire_sets_exact s'.
Proof.
  intros Hrun Hpips Hinv.
  destruct o as [b0 c0 st|b0|w0 n0 st|w0|p0 n0 st|p0| |]; simpl in *.
  - apply bindBel_Some in Hrun as (_ & _ & ->). exact Hinv.
  - apply unbindBel_Some in Hrun as (_ & c0 & _ & ->). exact Hinv.
  - apply bindWire_Some in Hrun as (_ & Hfree & ->).
    intros net w it. simpl. intros Hlook.
    rewrite getBoundWireNet_entry, getBoundPipNet_entry. simpl.
    rewrite entry_insert.
    destruct (decide (w0 = w)) as [<-|Hw].
    + destruct (decide (n0 = net)) as [<-|Hn].
      * rewrite fn_lookup_insert in Hlook. simpl in Hlook.
        rewrite lookup_insert_eq in Hlook. injection Hlook as <-.
        split; [done|]. simpl. by intros [].
      * rewrite fn_lookup_insert_ne in Hlook by done.
        apply Hinv in Hlook as [Hb _]. congruence.
    + rewrite (wires_insert_other _ _ _ w0) in Hlook; [|done|].
      * by apply Hinv in Hlook.
      * intros x Hx. by rewrite lookup_insert_ne.
  - apply unbindWire_Some in Hrun as (_ & n0 & it0 & Hn0 & Hit0 & ->).
    intros net w it. simpl. intros Hlook.
    rewrite getBoundWireNet_entry, getBoundPipNet_entry. simpl.
    rewrite entry_insert.
    destruct (decide (w0 = w)) as [<-|Hw].
    + destruct (decide (n0 = net)) as [<-|Hn].
      * rewrite fn_lookup_insert in Hlook. simpl in Hlook.
        by rewrite lookup_delete_eq in Hlook.
      * rewrite fn_lookup_insert_ne in Hlook by done.
        apply Hinv in Hlook as [Hb _]. congruence.
    + rewrite (wires_insert_other _ _ _ w0) in Hlook; [|done|].
      * apply Hinv in Hlook as [Hb Hd]. split; [done|].
        intros Hdrv. destruct (Hd Hdrv) as [Hpb Hdst]. split; [|done].
        case_decide as Hdrv0; [|done].
        rewrite entry_insert, decide_False; [done|].
        intros Heq. destruct (Hinv _ _ _ Hit0) as [_ Hd0].
        destruct (Hd0 Hdrv0) as [_ Hdst0]. congruence.
      * intros x Hx. by rewrite lookup_delete_ne.
  - apply bindPip_Some in Hrun as (Hp0 & Hfree & Hdfree & ->).
    intros net w it. simpl. intros Hlook.
    rewrite getBoundWireNet_entry, getBoundPipNet_entry. simpl.
    rewrite !entry_insert.
    destruct (decide (getPipDstWire p0 = w)) as [<-|Hw].
    + destruct (decide (n0 = net)) as [<-|Hn].
      * rewrite fn_lookup_insert in Hlook. simpl in Hlook.
        rewrite lookup_insert_eq in Hlook. injection Hlook as <-.
        simpl. by rewrite decide_True.
      * rewrite fn_lookup_insert_ne in Hlook by done.
        apply Hinv in Hlook as [Hb _]. congruence.
    + rewrite (wires_insert_other _ _ _ (getPipDstWire p0)) in Hlook; [|done|].
      * apply Hinv in Hlook as [Hb Hd]. split; [done|].
        intros Hdrv. destruct (Hd Hdrv) as [Hpb Hdst]. split; [|done].
        rewrite decide_False; [done|]. congruence.
      * intros x Hx. by rewrite lookup_insert_ne.
  - apply unbindPip_Some in Hrun as (Hp0 & n0 & Hn0 & _ & ->).
    destruct (Hpips _ _ Hn0) as (_ & Hdst0 & _).
    intros net w it. simpl. intros Hlook.
    rewrite getBoundWireNet_entry, getBoundPipNet_entry. simpl.
    rewrite !entry_insert.
    destruct (decide (getPipDstWire p0 = w)) as [<-|Hw].
    + destruct (decide (n0 = net)) as [<-|Hn].
      * rewrite fn_lookup_insert in Hlook. simpl in Hlook.
        by rewrite lookup_delete_eq in Hlook.
      * rewrite fn_lookup_insert_ne in Hlook by done.
        apply Hinv in Hlook as [Hb _]. congruence.
    + rewrite (wires_insert_other _ _ _ (getPipDstWire p0)) in Hlook; [|done|].
      * apply Hinv in Hlook as [Hb Hd]. split; [done|].
        intros Hdrv. destruct (Hd Hdrv) as [Hpb Hdst]. split; [|done].
        rewrite decide_False; [done|]. congruence.
      * intros x Hx. by rewrite lookup_delete_ne.
  - injection Hrun as <-. exact Hinv.
  - apply init_bel_buckets_Some in Hrun.
    eapply wire_sets_exact_frame; [| | |done]; naive_solver.
Qed.

Lemma wire_sets_exact_run (s : State) ops s' :
  run s ops = Some s' → pips_inv s →
  wire_sets_exact s → wire_sets_exact s'.
Proof.
  revert s. induction ops as [|o ops IH]; intros s.
  - by intros [= <-].
  - rewrite run_cons. intros (s1 & Hstep & Hrest) Hpips Hinv.
    eauto using wire_sets_exact_step, pips_inv_step.
Qed.

(** X13: on a design whose nets start with empty wire-sets, after any run
    without a fatal call the wire-set of a net holds exactly the wires bound
    to that net, and an entry names the driver [p] exactly when [p] is bound
    to that net and the wire is its destination.  Bound wires without a
    bound driver carry the null pip. *)
Theorem wire_sets_hold_exactly_bound_wires cs ns ops (s : State) :
  (∀ net, wires (ns net) = ∅) →
  run (BaseArch_new cs ns) ops = Some s →
  (∀ net w, is_Some (wires (nets s net) !! w) ↔ getBoundWireNet s w = Some net) ∧
  (∀ net w it p, wires (nets s net) !! w = Some it → p ≠ PipId_null →
     pip it = p ↔ getBoundPipNet s p = Some net ∧ getPipDstWire p = w).
Proof.
  intros Hempty Hrun.
  pose proof (pips_inv_run _ _ _ Hrun (pips_inv_new cs ns)) as Hp.
  pose proof (wires_consistent_run _ _ _ Hrun (wires_consistent_new cs ns)) as Hw.
  assert (wire_sets_exact s) as Hx.
  { apply (wire_sets_exact_run _ _ _ Hrun (pips_inv_new cs ns)).
    intros net w it. simpl. by rewrite Hempty, lookup_empty. }
  split.
  - intros net w. split; [|by apply Hw].
    intros [it Hit]. by destruct (Hx _ _ _ Hit) as [Hb _].
  - intros net w it p Hit Hvalid. split.
    + intros <-. destruct (Hx _ _ _ Hit) as [_ Hd]. by apply Hd.
    + intros [Hbound <-]. apply Hp in Hbound as (_ & _ & Hdrv).
      rewrite Hit in Hdrv. by injection Hdrv.
Qed.

(** X14: in a state reached from a fresh architecture the assertions inside
    the unbind calls cannot fail on a bound resource: [unbindBel] succeeds
    on every bound bel, [unbindPip] on every bound pip, and [unbindWire] on
    every bound wire but the null wire; after each of them the resource can
    be bound again. *)
Theorem unbind_succeeds_on_bound_resources (s : State) :
  reachable s →
  (∀ b cell, getBoundBelCell s b = Some cell →
     ∃ s', unbindBel s b = Some s' ∧ ∀ c st, is_Some (bindBel s' b c st)) ∧
  (∀ w net, w ≠ WireId_null → getBoundWireNet s w = Some net →
     ∃ s', unbindWire s w = Some s' ∧ ∀ n st, is_Some (bindWire s' w n st)) ∧
  (∀ p net, getBoundPipNet s p = Some net →
     ∃ s', unbindPip s p = Some s' ∧ ∀ n st, is_Some (bindPip s' p n st)).
Proof.
  intros (cs & ns & ops & Hrun).
  pose proof (pips_inv_run _ _ _ Hrun (pips_inv_new cs ns)) as Hp.
  pose proof (wires_consistent_run _ _ _ Hrun (wires_consistent_new cs ns)) as Hw.
  assert (getBoundBelCell s BelId_null = nullptr) as Hnull.
  { apply (null_bel_unbound_run _ _ _ Hrun).
    rewrite getBoundBelCell_entry. apply entry_empty. }
  split_and!.
  - intros b cell Hbound.
    assert (b ≠ BelId_null) as Hb by congruence.
    eexists. split; [apply unbindBel_Some; eauto|].
    intros c st. eexists. apply bindBel_Some. split_and!; [done| |done].
    rewrite getBoundBelCell_entry. simpl. by rewrite entry_insert, decide_True.
  - intros w net Hvalid Hbound.
    destruct (Hw _ _ Hbound) as [it Hit].
    eexists. split; [apply unbindWire_Some; split; [done|]; by exists net, it|].
    intros n st. eexists. apply bindWire_Some. split_and!; [done| |done].
    rewrite getBoundWireNet_entry. simpl. by rewrite entry_insert, decide_True.
  - intros p net Hbound.
    destruct (Hp _ _ Hbound) as (Hvalid & Hdst & _).
    eexists. split.
    { apply unbindPip_Some. split; [done|]. exists net.
      split_and!; [done| |done]. by rewrite Hdst. }
    intros n st. eexists. apply bindPip_Some.
    rewrite getBoundPipNet_entry, getBoundWireNet_entry. simpl.
    rewrite !entry_insert, !decide_True by done. by split_and!.
Qed.

(** X15: in a state reached from a fresh architecture, for a bound pip whose
    destination is not the null wire, [unbindWire] of the destination wire
    and [unbindPip] of the pip both succeed and leave the same maps, nets
    and cells; they differ in the notification only, which [unbindWire]
    makes and [unbindPip] does not. *)
Theorem unbindWire_of_dst_acts_as_unbindPip (s : State) p net :
  reachable s →
  getBoundPipNet s p = Some net →
  getPipDstWire p ≠ WireId_null →
  ∃ s1 s2, unbindPip s p = Some s1 ∧
    unbindWire s (getPipDstWire p) = Some s2 ∧
    base_bel2cell s2 = base_bel2cell s1 ∧
    base_wire2net s2 = base_wire2net s1 ∧
    base_pip2net s2 = base_pip2net s1 ∧
    nets s2 = nets s1 ∧ cells s2 = cells s1 ∧
    ui_events s1 = ui_events s ∧
    ui_events s2 = ui_events s ++ [RefreshUiWire (getPipDstWire p)].
Proof.
  intros (cs & ns & ops & Hrun) Hbound Hvalid.
  pose proof (pips_inv_run _ _ _ Hrun (pips_inv_new cs ns)) as Hp.
  destruct (Hp _ _ Hbound) as (Hpv & Hdst & Hdrv).
  destruct (wires (nets s net) !! getPipDstWire p) as [it|] eqn:Hit; [|done].
  injection Hdrv as Hdrv.
  eexists. eexists. split.
  { apply unbindPip_Some. split; [done|]. exists net.
    split_and!; [done| |done]. by rewrite Hdst. }
  split.
  { apply unbindWire_Some. split; [done|]. by exists net, it. }
  simpl. rewrite Hdrv, decide_True by done. by split_and!.
Qed.

(** ** The indices after the two initialisation calls *)

(** The state that [init_cell_types] followed by [init_bel_buckets] leaves
    on a fresh architecture. *)
Lemma init_indices_state cs ns (s2 : State) :
  init_bel_buckets (init_cell_types (BaseArch_new cs ns)) = Some s2 →
  ∃ types,
    cell_types_initialised s2 = true ∧ bel_buckets_initialised s2 = true ∧
    cell_types s2 = types ∧ bel_buckets s2 = types ∧
    (∀ k, bucket_bels s2 !! k =
            if decide (k ∈ types)
            then Some (filter (λ b, getBelBucketForBel b = k) getBels)
            else None) ∧
    StronglySorted IdString_le types ∧ NoDup types ∧
    (∀ t, t ∈ types ↔ ∃ b, b ∈ getBels ∧ getBelType b = t).
Proof.
  intros [= <-].
  destruct (init_cell_types_new cs ns) as (Hsorted & Hnodup & Htypes).
  set (types := cell_types (init_cell_types (BaseArch_new cs ns))) in *.
  exists types.
  assert (∀ k, bucket_bels
      (default (BaseArch_new cs ns)
         (init_bel_buckets (init_cell_types (BaseArch_new cs ns)))) !! k
    = if decide (k ∈ types)
      then Some (filter (λ b, getBelBucketForBel b = k) getBels) else None)
    as Hbb.
  { intros k. by apply lookup_bucket_bels_init. }
  simpl in Hbb. simpl.
  split_and!; try done.
  apply sorted_NoDup_unique; [apply sort_ids_StronglySorted| |done|done|].
  - rewrite sort_ids_Permutation. apply NoDup_fst_map_to_list.
  - intros k. rewrite sort_ids_Permutation, list_elem_of_fmap. split.
    + intros ([k' l] & -> & Hin%elem_of_map_to_list). simpl.
      rewrite Hbb in Hin. by case_decide.
    + intros Hk. eexists (k, _). split; [done|].
      apply elem_of_map_to_list. rewrite Hbb. by rewrite decide_True.
Qed.

(** X16: after the two initialisation calls on a fresh architecture, the
    bucket of a cell type of the device lists exactly the bels for which
    [isValidBelForCellType] accepts that type, in enumeration order; for a
    type that no bel has, no bel is accepted and [getBelsInBucket] has no
    value for its bucket. *)
Theorem bucket_lists_the_valid_bels cs ns (s2 : State) :
  init_bel_buckets (init_cell_types (BaseArch_new cs ns)) = Some s2 →
  ∃ types, getCellTypes s2 = Some types ∧
    ∀ t,
      (t ∈ types →
         getBelsInBucket s2 (getBelBucketForCellType t)
           = Some (filter (λ b, isValidBelForCellType t b = true) getBels)) ∧
      (t ∉ types →
         getBelsInBucket s2 (getBelBucketForCellType t) = None ∧
         ∀ b, b ∈ getBels → isValidBelForCellType t b = false).
Proof.
  intros Hinit.
  destruct (init_indices_state _ _ _ Hinit)
    as (types & Hf1 & Hf2 & Hct & _ & Hbb & _ & _ & Htypes).
  exists types. split.
  { unfold getCellTypes. by rewrite Hf1, Hct. }
  intros t. unfold getBelsInBucket, getBelBucketForCellType, getBelBucketByName.
  rewrite Hf2, Hbb. simpl. split.
  - intros Ht. rewrite decide_True by done. f_equal.
    apply list_filter_iff. intros b.
    unfold isValidBelForCellType, getBelBucketForBel, getBelBucketForCellType,
      getBelBucketByName.
    rewrite bool_decide_eq_true. naive_solver.
  - intros Ht. rewrite decide_False by done. split; [done|].
    intros b Hb. unfold isValidBelForCellType.
    apply bool_decide_eq_false. intros ->. apply Ht, Htypes. by exists b.
Qed.

(** X17: after the two initialisation calls on a fresh architecture the
    bucket ids are the cell types, every bucket is non-empty and holds
    exactly the enumerated bels that [getBelBucketForBel] maps to it, and
    every enumerated bel is found in its own bucket. *)
Theorem buckets_are_the_cell_types cs ns (s2 : State) :
  init_bel_buckets (init_cell_types (BaseArch_new cs ns)) = Some s2 →
  getBelBuckets s2 = getCellTypes s2 ∧
  (∀ k bels, getBelsInBucket s2 k = Some bels →
     bels ≠ [] ∧ ∀ b, b ∈ bels ↔ b ∈ getBels ∧ getBelBucketForBel b = k) ∧
  (∀ b, b ∈ getBels →
     ∃ bels, getBelsInBucket s2 (getBelBucketForBel b) = Some bels ∧ b ∈ bels).
Proof.
  intros Hinit.
  destruct (init_indices_state _ _ _ Hinit)
    as (types & Hf1 & Hf2 & Hct & Hbk & Hbb & _ & _ & Htypes).
  split_and!.
  - unfold getBelBuckets, getCellTypes. by rewrite Hf1, Hf2, Hct, Hbk.
  - intros k bels. unfold getBelsInBucket. rewrite Hf2, Hbb. simpl.
    case_decide as Hk; [|done]. intros [= <-].
    assert (∀ b, b ∈ filter (λ b, getBelBucketForBel b = k) getBels
                 ↔ b ∈ getBels ∧ getBelBucketForBel b = k) as Hmem.
    { intros b. rewrite list_elem_of_filter. naive_solver. }
    split; [|done].
    apply Htypes in Hk as (b & Hb & Hbt).
    apply (elem_of_not_nil b), Hmem. done.
  - intros b Hb. eexists. unfold getBelsInBucket. rewrite Hf2, Hbb. simpl.
    rewrite decide_True.
    + split; [done|]. by apply list_elem_of_filter.
    + apply Htypes. by exists b.
Qed.

(** X18: on a device without bels the two initialisation calls succeed and
    leave no cell type and no bucket; [getBelsInBucket] then has no value
    for any bucket id. *)
Theorem init_on_empty_device cs ns :
  getBels = [] →
  ∃ s2 : State,
    init_bel_buckets (init_cell_types (BaseArch_new cs ns)) = Some s2 ∧
    getCellTypes s2 = Some [] ∧ getBelBuckets s2 = Some [] ∧
    ∀ bucket, getBelsInBucket s2 bucket = None.
Proof.
  intros Hempty.
  eexists. split; [reflexivity|].
  match goal with |- context [getCellTypes ?x] => set (s2 := x) end.
  destruct (init_indices_state cs ns s2 eq_refl)
    as (types & Hf1 & Hf2 & Hct & Hbk & Hbb & _ & _ & Htypes).
  assert (types = []) as ->.
  { apply elem_of_nil_inv. intros t [b [Hb _]]%Htypes.
    rewrite Hempty in Hb. by apply elem_of_nil in Hb. }
  unfold getCellTypes, getBelBuckets, getBelsInBucket.
  rewrite Hf1, Hf2, Hct, Hbk. split_and!; [done..|].
  intros bucket. rewrite Hbb.
  by rewrite decide_False by apply not_elem_of_nil.
Qed.

Lemma init_bel_buckets_fields (s s' : State) :
  init_bel_buckets s = Some s' →
  cell_types_initialised s = true ∧
  bucket_bels s' =
    foldl push_back_bel
      (foldl (λ bb cell_type,
                create_bucket bb (getBelBucketForCellType cell_type))
             (bucket_bels s) (cell_types s)) getBels ∧
  bel_buckets s' =
    sort_ids (bel_buckets s ++ (map_to_list (bucket_bels s')).*1) ∧
  bel_buckets_initialised s' = true.
Proof.
  unfold init_bel_buckets, getCellTypes.
  destruct (cell_types_initialised s); simpl; [|done].
  by intros [= <-].
Qed.

(** X19: the initialisation calls append to what they find.  A second
    [init_cell_types] leaves every cell type twice in [cell_types], which
    then has duplicates as soon as the device has a bel; a second
    [init_bel_buckets] leaves every bucket id twice in [bel_buckets] and
    every bel twice in its bucket. *)
Theorem init_twice_duplicates cs ns :
  let s1 : State := init_cell_types (BaseArch_new cs ns) in
  cell_types (init_cell_types s1) ≡ₚ cell_types s1 ++ cell_types s1 ∧
  (getBels ≠ [] → ¬ NoDup (cell_types (init_cell_types s1))) ∧
  ∃ s2 s3, init_bel_buckets s1 = Some s2 ∧ init_bel_buckets s2 = Some s3 ∧
    bel_buckets s3 ≡ₚ bel_buckets s2 ++ bel_buckets s2 ∧
    ∀ k bels, getBelsInBucket s2 k = Some bels →
      getBelsInBucket s3 k = Some (bels ++ bels).
Proof.
  intros s1.
  destruct (init_cell_types_new cs ns) as (_ & _ & Htypes0).
  assert (cell_types (init_cell_types s1) ≡ₚ cell_types s1 ++ cell_types s1)
    as Hperm.
  { simpl. rewrite !sort_ids_Permutation. done. }
  split; [done|]. split.
  { intros Hne. rewrite Hperm. rewrite NoDup_app. intros (_ & Hdisj & _).
    destruct getBels as [|b bels] eqn:Hbels; [done|].
    assert (getBelType b ∈ cell_types s1) as Hin.
    { apply Htypes0. exists b. split; [left|done]. }
    by apply (Hdisj _ Hin). }
  assert (∃ s2, init_bel_buckets s1 = Some s2) as [s2 Hs2]
    by (eexists; reflexivity).
  destruct (init_indices_state cs ns s2 Hs2)
    as (types & Hf1 & Hf2 & Hct & Hbk & Hbb & _ & Hnodup & Htypes).
  assert (∃ s3, init_bel_buckets s2 = Some s3) as [s3 Hs3].
  { unfold init_bel_buckets, getCellTypes. rewrite Hf1. simpl. eauto. }
  exists s2, s3. split; [done|]. split; [done|].
  destruct (init_bel_buckets_fields _ _ Hs3) as (_ & Hbb3eq & Hbk3 & Hf3).
  rewrite Hct in Hbb3eq.
  assert (∀ k, bucket_bels s3 !! k =
               if decide (k ∈ types)
               then Some (filter (λ b, getBelBucketForBel b = k) getBels ++
                          filter (λ b, getBelBucketForBel b = k) getBels)
               else None) as Hbb3.
  { intros k.
    rewrite Hbb3eq, lookup_push_back_bels, lookup_create_buckets, Hbb.
    assert (k ∈ getBelBucketForBel <$> getBels ↔ k ∈ types) as Hk.
    { rewrite Htypes, list_elem_of_fmap. naive_solver. }
    repeat case_decide; naive_solver. }
  split.
  - rewrite Hbk3, sort_ids_Permutation. apply Permutation_app_head.
    apply NoDup_Permutation; [apply NoDup_fst_map_to_list|by rewrite Hbk|].
    intros k. rewrite Hbk, list_elem_of_fmap. split.
    + intros ([k' l] & -> & Hin%elem_of_map_to_list). simpl.
      rewrite Hbb3 in Hin. by case_decide.
    + intros Hk. eexists (k, _). split; [done|].
      apply elem_of_map_to_list. rewrite Hbb3. by rewrite decide_True.
  - intros k bels. unfold getBelsInBucket.
    rewrite Hf2, Hf3, Hbb, Hbb3. simpl.
    case_decide; [|done]. by intros [= <-].
Qed.

End MoreProperties.

(** * Concrete runs on the small device *)

Import Toy.
#[local] Existing Instance toy_arch.
#[local] Open Scope Z_scope.

(** C6: on the fresh small device, [bindBel] and [bindWire] each record one
    notification, while [bindPip] on the valid free pip 1 succeeds and
    records none, and so does the [unbindPip] that follows it. *)
Theorem pip_calls_notify_nobody :
  ui_events <$> bindBel toy_new A 5%positive STRENGTH_PLACER
    = Some [RefreshUiBel A] ∧
  ui_events <$> bindWire toy_new 11 7%positive STRENGTH_WEAK
    = Some [RefreshUiWire 11] ∧
  ui_events <$> bindPip toy_new 1 7%positive STRENGTH_WEAK = Some [] ∧
  ui_events <$> (bindPip toy_new 1 7%positive STRENGTH_WEAK
                   ≫= λ s, unbindPip s 1) = Some [].
Proof. by vm_compute. Qed.

Lemma bindBel_then_unbindBel_witness :
  A ≠ BelId_null ∧ getBoundBelCell toy_new A = nullptr ∧
  ∃ s1, bindBel toy_new A 5%positive STRENGTH_PLACER = Some s1 ∧
    checkBelAvail s1 A = false ∧
    getBoundBelCell s1 A = Some 5%positive ∧
    belStrength (cells s1 5%positive) = STRENGTH_PLACER ∧
    ∃ s2, unbindBel s1 A = Some s2 ∧
      checkBelAvail s2 A = true ∧
      getBoundBelCell s2 A = nullptr ∧
      belStrength (cells s2 5%positive) = STRENGTH_NONE.
Proof.
  split; [discriminate|]. split; [reflexivity|].
  apply (bindBel_then_unbindBel toy_new A 5%positive STRENGTH_PLACER);
    [discriminate|reflexivity].
Defined.

Lemma bindPip_binds_pip_and_dst_witness :
  (∃ s', bindPip toy_new 1 7%positive STRENGTH_STRONG = Some s' ∧
     getBoundPipNet s' 1 = Some 7%positive ∧
     getBoundWireNet s' 11 = Some 7%positive ∧
     wires (nets s' 7%positive) !! 11
       = Some {| pip := 1; strength := STRENGTH_STRONG |}) ∧
  bindPip (toy_run [OpBindPip 1 7%positive STRENGTH_STRONG])
          1 3%positive STRENGTH_WEAK = None ∧
  bindPip (toy_run [OpBindWire 11 7%positive STRENGTH_STRONG])
          1 7%positive STRENGTH_WEAK = None.
Proof.
  split_and!.
  - refine (proj1 (bindPip_binds_pip_and_dst toy_new 1 7%positive
                     STRENGTH_STRONG) _ _ _);
      [discriminate|reflexivity|reflexivity].
  - apply (proj2 (bindPip_binds_pip_and_dst
                    (toy_run [OpBindPip 1 7%positive STRENGTH_STRONG])
                    1 3%positive STRENGTH_WEAK)).
    left. vm_compute. discriminate.
  - apply (proj2 (bindPip_binds_pip_and_dst
                    (toy_run [OpBindWire 11 7%positive STRENGTH_STRONG])
                    1 7%positive STRENGTH_WEAK)).
    right. vm_compute. discriminate.
Defined.

Lemma unbindPip_clears_pip_and_dst_witness :
  let s := toy_run [OpBindPip 1 7%positive STRENGTH_STRONG] in
  ∃ s', unbindPip s 1 = Some s' ∧
    getBoundPipNet s' 1 = nullptr ∧
    getBoundWireNet s' 11 = nullptr ∧
    wires (nets s' 7%positive) !! 11 = None.
Proof.
  refine (unbindPip_clears_pip_and_dst
            (toy_run [OpBindPip 1 7%positive STRENGTH_STRONG]) 1 7%positive
            _ _ _);
    [discriminate|reflexivity|reflexivity].
Defined.

Lemma unbindWire_cascades_to_driver_witness :
  let s := toy_run [OpBindPip 1 7%positive STRENGTH_STRONG;
                    OpBindWire 20 7%positive STRENGTH_WEAK] in
  (∃ s', unbindWire s 11 = Some s' ∧
     getBoundWireNet s' 11 = nullptr ∧
     getBoundPipNet s' 1 = nullptr ∧
     wires (nets s' 7%positive) !! 11 = None) ∧
  (∃ s', unbindWire s 20 = Some s' ∧
     getBoundWireNet s' 20 = nullptr ∧
     getBoundPipNet s' 1 = Some 7%positive ∧
     base_pip2net s' = base_pip2net s).
Proof.
  intros s. split.
  - destruct (unbindWire_cascades_to_driver s 11 7%positive
                {| pip := 1; strength := STRENGTH_STRONG |})
      as (s' & Hrun & Hw & Hnet & _ & _ & Hdrv & _);
      [discriminate|reflexivity|reflexivity|].
    exists s'. split_and!; [done|done| |].
    + apply Hdrv. discriminate.
    + rewrite Hnet. reflexivity.
  - destruct (unbindWire_cascades_to_driver s 20 7%positive
                {| pip := PipId_null; strength := STRENGTH_WEAK |})
      as (s' & Hrun & Hw & _ & _ & _ & _ & Hnone);
      [discriminate|reflexivity|reflexivity|].
    exists s'. split_and!; [done|done| |].
    + rewrite getBoundPipNet_entry, Hnone; reflexivity.
    + apply Hnone. reflexivity.
Defined.

Lemma contract_violations_are_fatal_witness :
  let s := toy_run [OpBindBel A 5%positive STRENGTH_PLACER;
                    OpBindPip 1 7%positive STRENGTH_STRONG] in
  bindBel s A 6%positive STRENGTH_WEAK = None ∧
  bindWire s 11 3%positive STRENGTH_WEAK = None ∧
  bindPip s 1 3%positive STRENGTH_WEAK = None ∧
  unbindBel s B = None ∧
  unbindWire s 12 = None ∧
  unbindPip s 2 = None ∧
  getCellTypes s = None ∧
  getBelBuckets s = None ∧
  getBelsInBucket s LUT = None.
Proof.
  intros s.
  destruct (contract_violations_are_fatal s)
    as (Hbb & Hbw & Hbp & Hub & Huw & Hup & _ & _ & _ & _ & _ & _ & Hct & Hbk).
  split_and!.
  - apply Hbb. vm_compute. discriminate.
  - apply Hbw. vm_compute. discriminate.
  - apply Hbp. left. vm_compute. discriminate.
  - apply Hub. reflexivity.
  - apply Huw. reflexivity.
  - apply Hup. reflexivity.
  - apply Hct. reflexivity.
  - apply Hbk. reflexivity.
  - apply Hbk. reflexivity.
Defined.

(** C1 fails as stated.  Placing the cell at address 5 on bel A and then on
    bel B: both calls find a valid bel without owner and succeed, after which
    A is still bound to the cell while the current bel of the cell is B. *)
Lemma placing_a_cell_twice_breaks_consistency :
  ¬ (∀ s : BaseArch Z Z Z Z, reachable s → bindings_consistent s).
Proof.
  intros Hall.
  destruct (Hall (toy_run [OpBindBel A 5%positive STRENGTH_PLACER;
                           OpBindBel B 5%positive STRENGTH_PLACER]))
    as (Hbels & _).
  { exists toy_cells, toy_nets,
      [OpBindBel A 5%positive STRENGTH_PLACER;
       OpBindBel B 5%positive STRENGTH_PLACER].
    reflexivity. }
  specialize (Hbels A 5%positive eq_refl).
  vm_compute in Hbels. discriminate.
Qed.

Lemma bindings_consistent_when_placing_free_witness :
  let ops := [OpBindBel A 5%positive STRENGTH_PLACER;
              OpBindWire 20 7%positive STRENGTH_WEAK;
              OpBindPip 1 7%positive STRENGTH_STRONG;
              OpUnbindBel A;
              OpBindBel B 5%positive STRENGTH_USER;
              OpUnbindWire 11] in
  run_placing_free toy_new ops = Some (toy_run ops) ∧
  bindings_consistent (toy_run ops).
Proof.
  intros ops. split; [reflexivity|].
  refine (proj1 (bindings_consistent_when_placing_free
                   toy_cells toy_nets ops (toy_run ops) _)).
  reflexivity.
Defined.

Lemma bound_pip_dst_wire_same_net_witness :
  let ops := [OpBindPip 1 7%positive STRENGTH_STRONG;
              OpBindPip 2 3%positive STRENGTH_WEAK;
              OpUnbindWire 11;
              OpBindWire 11 3%positive STRENGTH_WEAK] in
  run toy_new ops = Some (toy_run ops) ∧
  getBoundPipNet (toy_run ops) 2 = Some 3%positive ∧
  pip_dst_coupled (toy_run ops).
Proof.
  intros ops. split; [reflexivity|]. split; [reflexivity|].
  apply bound_pip_dst_wire_same_net.
  exists toy_cells, toy_nets, ops. reflexivity.
Defined.

Lemma never_bound_resources_are_free_witness :
  let ops := [OpBindBel A 5%positive STRENGTH_PLACER;
              OpBindPip 1 7%positive STRENGTH_STRONG;
              OpUnbindPip 1] in
  (getBoundBelCell (toy_run ops) B = nullptr ∧
   checkBelAvail (toy_run ops) B = true) ∧
  (getBoundWireNet (toy_run ops) 12 = nullptr ∧
   checkWireAvail (toy_run ops) 12 = true) ∧
  (getBoundPipNet (toy_run ops) 2 = nullptr ∧
   checkPipAvail (toy_run ops) 2 = true).
Proof.
  intros ops.
  destruct (never_bound_resources_are_free toy_cells toy_nets ops (toy_run ops))
    as (_ & _ & _ & _ & Hb & Hw & Hp); [reflexivity|].
  split; [|split].
  - apply Hb. repeat constructor; simpl; try tauto; discriminate.
  - apply Hw. repeat constructor; simpl; try tauto; discriminate.
  - apply Hp. repeat constructor; simpl; try tauto; discriminate.
Defined.

Lemma init_indices_partition_bels_witness :
  ∃ s2, init_bel_buckets (init_cell_types toy_new) = Some s2 ∧
    getCellTypes s2 = Some [FF; LUT] ∧
    getBelBuckets s2 = Some [FF; LUT] ∧
    getBelsInBucket s2 FF = Some [C] ∧
    getBelsInBucket s2 LUT = Some [A; B] ∧
    NoDup (concat ((λ k, default [] (getBelsInBucket s2 k)) <$> [FF; LUT])).
Proof.
  destruct (init_indices_partition_bels toy_cells toy_nets)
    as (s2 & Hinit & types & buckets & Hct & Hbk & _ & _ & _ & _ & _ &
        Hnodup & Hscenario).
  destruct (Hscenario A B C FF LUT) as (-> & -> & HFF & HLUT);
    [reflexivity|reflexivity|reflexivity|reflexivity| |discriminate|].
  { intros Hle. discriminate Hle. }
  exists s2. split_and!; try done.
  apply Hnodup. repeat constructor; set_solver.
Defined.

(** ** Concrete runs for the further properties *)

Lemma bindWire_then_unbindWire_witness :
  ∃ s1 s2, bindWire toy_new 20 7%positive STRENGTH_WEAK = Some s1 ∧
    wires (nets s1 7%positive) !! 20
      = Some {| pip := PipId_null; strength := STRENGTH_WEAK |} ∧
    unbindWire s1 20 = Some s2 ∧
    getBoundWireNet s2 20 = nullptr ∧
    wires (nets s2 7%positive) !! 20 = None.
Proof.
  destruct (bindWire_then_unbindWire toy_new 20 7%positive STRENGTH_WEAK)
    as (s1 & Hs1 & _ & _ & Hit & s2 & Hs2 & Hw & _ & Hnet & _);
    [discriminate|reflexivity|].
  exists s1, s2. split_and!; [done..| |].
  - by rewrite Hw.
  - rewrite Hnet. reflexivity.
Defined.

Lemma bindPip_then_unbindPip_witness :
  ∃ s1 s2, bindPip toy_new 1 7%positive STRENGTH_STRONG = Some s1 ∧
    unbindPip s1 1 = Some s2 ∧
    getBoundPipNet s2 1 = nullptr ∧ getBoundWireNet s2 11 = nullptr ∧
    wires (nets s2 7%positive) !! 11 = None ∧
    ui_events s2 = [].
Proof.
  destruct (bindPip_then_unbindPip toy_new 1 7%positive STRENGTH_STRONG)
    as (s1 & s2 & Hs1 & Hs2 & Hp & Hw & Hnet & _ & _ & Hui);
    [discriminate|reflexivity|reflexivity|].
  exists s1, s2. split_and!; [done|done| | | |done].
  - by rewrite Hp.
  - by rewrite Hw.
  - rewrite Hnet. reflexivity.
Defined.

Lemma bind_succeeds_iff_available_witness :
  let s := toy_run [OpBindWire 11 7%positive STRENGTH_WEAK] in
  is_Some (bindBel s A 5%positive STRENGTH_PLACER) ∧
  checkPipAvail s 1 = true ∧
  bindPip s 1 7%positive STRENGTH_WEAK = None ∧
  getConflictingPipNet s 1 = nullptr.
Proof.
  intros s.
  destruct (bind_succeeds_iff_available s) as (Hb & _ & _ & Hp).
  split; [apply Hb; split; [discriminate|reflexivity]|].
  split; [reflexivity|].
  destruct (Hp 1 7%positive STRENGTH_WEAK) as (Hnone & Hnet & _);
    [reflexivity|reflexivity|].
  by split.
Defined.

Lemma unbindBel_frees_cell_and_bel_witness :
  let s := toy_run [OpBindBel A 5%positive STRENGTH_PLACER] in
  ∃ s', unbindBel s A = Some s' ∧
    bel (cells s' 5%positive) = BelId_null ∧
    is_Some (bindBel s' A 6%positive STRENGTH_USER).
Proof.
  intros s. eexists. split; [reflexivity|].
  edestruct (unbindBel_frees_cell_and_bel s A 5%positive)
    as (Hbel & _ & _ & Hbind); [reflexivity|reflexivity|].
  split; [exact Hbel|apply Hbind].
Defined.

Lemma bindBel_keeps_previous_bel_witness :
  let s := toy_run [OpBindBel A 5%positive STRENGTH_PLACER] in
  ∃ s1 s2, bindBel s B 5%positive STRENGTH_WEAK = Some s1 ∧
    getBoundBelCell s1 A = Some 5%positive ∧
    getBoundBelCell s1 B = Some 5%positive ∧
    bel (cells s1 5%positive) = B ∧
    unbindBel s1 A = Some s2 ∧
    getBoundBelCell s2 B = Some 5%positive ∧
    bel (cells s2 5%positive) = BelId_null.
Proof.
  intros s.
  refine (bindBel_keeps_previous_bel s A B 5%positive STRENGTH_WEAK _ _ _ _);
    [reflexivity|discriminate|discriminate|reflexivity].
Defined.

Lemma second_bind_or_unbind_is_fatal_witness :
  bindPip (toy_run [OpBindPip 1 7%positive STRENGTH_WEAK])
          1 3%positive STRENGTH_USER = None ∧
  unbindWire (toy_run [OpBindWire 20 7%positive STRENGTH_WEAK; OpUnbindWire 20])
             20 = None.
Proof.
  split.
  - refine (proj1 (proj2 (proj2 (second_bind_or_unbind_is_fatal toy_new _)))
              1 7%positive STRENGTH_WEAK 3%positive STRENGTH_USER _).
    reflexivity.
  - refine (proj1 (proj2 (proj2 (proj2 (proj2
              (second_bind_or_unbind_is_fatal
                 (toy_run [OpBindWire 20 7%positive STRENGTH_WEAK]) _)))))
              20 _).
    reflexivity.
Defined.

Lemma release_pip_or_dst_wire_not_both_witness :
  let s := toy_run [OpBindPip 1 7%positive STRENGTH_WEAK] in
  unbindPip (toy_run [OpBindPip 1 7%positive STRENGTH_WEAK; OpUnbindWire 11])
            1 = None ∧
  unbindWire (toy_run [OpBindPip 1 7%positive STRENGTH_WEAK; OpUnbindPip 1])
             11 = None.
Proof.
  intros s. split.
  - refine (proj1 (release_pip_or_dst_wire_not_both s _) 11 7%positive
              {| pip := 1; strength := STRENGTH_WEAK |} _ _ _ _);
      [reflexivity|reflexivity|discriminate|reflexivity].
  - refine (proj2 (release_pip_or_dst_wire_not_both s _) 1 _).
    reflexivity.
Defined.

Lemma bindPip_can_bind_null_wire_witness :
  ∃ s1 s2, bindPip toy_new (-11) 7%positive STRENGTH_WEAK = Some s1 ∧
    getBoundWireNet s1 WireId_null = Some 7%positive ∧
    checkWireAvail s1 WireId_null = false ∧
    unbindWire s1 WireId_null = None ∧
    unbindPip s1 (-11) = Some s2 ∧
    getBoundWireNet s2 WireId_null = nullptr.
Proof.
  refine (bindPip_can_bind_null_wire toy_new (-11) 7%positive STRENGTH_WEAK
            _ _ _ _);
    [discriminate|reflexivity|reflexivity|reflexivity].
Defined.

Lemma run_changes_only_its_tables_witness :
  let ops := [OpBindWire 20 7%positive STRENGTH_WEAK;
              OpBindPip 1 7%positive STRENGTH_STRONG;
              OpUnbindWire 20] in
  base_bel2cell (toy_run ops) = base_bel2cell toy_new ∧
  getCellTypes (toy_run ops) = getCellTypes toy_new.
Proof.
  intros ops.
  destruct (run_changes_only_its_tables toy_new ops (toy_run ops))
    as (Hp & _ & Hi); [reflexivity|].
  split.
  - apply Hp. repeat constructor; discriminate.
  - apply Hi. repeat constructor; discriminate.
Defined.

Lemma run_notifications_witness :
  let ops := [OpBindBel A 5%positive STRENGTH_PLACER;
              OpBindPip 1 7%positive STRENGTH_STRONG;
              OpUnbindWire 11;
              OpUnbindBel A] in
  ui_events (toy_run ops)
    = [RefreshUiBel A; RefreshUiWire 11; RefreshUiBel A].
Proof.
  intros ops.
  refine (proj1 (run_notifications toy_new ops (toy_run ops) _)).
  reflexivity.
Defined.

Lemma null_bel_and_pip_never_bound_witness :
  let ops := [OpBindBel A 5%positive STRENGTH_PLACER;
              OpBindPip (-11) 7%positive STRENGTH_WEAK] in
  getBoundBelCell (toy_run ops) BelId_null = nullptr ∧
  getBoundPipNet (toy_run ops) PipId_null = nullptr ∧
  getBoundWireNet (toy_run ops) WireId_null = Some 7%positive.
Proof.
  intros ops.
  destruct (null_bel_and_pip_never_bound (toy_run ops)) as (Hb & Hp & _).
  { exists toy_cells, toy_nets, ops. reflexivity. }
  split_and!; [done|done|reflexivity].
Defined.

Lemma bound_pips_have_distinct_dst_wires_witness :
  let s := toy_run [OpBindPip 1 7%positive STRENGTH_WEAK;
                    OpBindPip 2 3%positive STRENGTH_WEAK] in
  getBoundPipNet s 1 = Some 7%positive ∧
  ((1 : Z) = 1 ∧ 7%positive = 7%positive).
Proof.
  intros s. split; [reflexivity|].
  refine (bound_pips_have_distinct_dst_wires s 1 1 7%positive 7%positive
            _ _ _ _); [|reflexivity..].
  exists toy_cells, toy_nets,
    [OpBindPip 1 7%positive STRENGTH_WEAK; OpBindPip 2 3%positive STRENGTH_WEAK].
  reflexivity.
Defined.

Lemma wire_sets_hold_exactly_bound_wires_witness :
  let ops := [OpBindWire 20 7%positive STRENGTH_WEAK;
              OpBindPip 1 7%positive STRENGTH_STRONG;
              OpBindPip 2 3%positive STRENGTH_WEAK;
              OpUnbindWire 12] in
  getBoundWireNet (toy_run ops) 11 = Some 7%positive ∧
  getBoundWireNet (toy_run ops) 20 = Some 7%positive ∧
  getBoundPipNet (toy_run ops) 1 = Some 7%positive.
Proof.
  intros ops.
  destruct (wire_sets_hold_exactly_bound_wires toy_cells toy_nets ops
              (toy_run ops)) as (Hw & Hp); [done|reflexivity|].
  split_and!.
  - apply Hw. by eexists.
  - apply Hw. by eexists.
  - refine (proj1 (proj1 (Hp 7%positive 11
                            {| pip := 1; strength := STRENGTH_STRONG |} 1 _ _)
                         _)); [reflexivity|discriminate|reflexivity].
Defined.

Lemma unbind_succeeds_on_bound_resources_witness :
  let s := toy_run [OpBindBel A 5%positive STRENGTH_PLACER;
                    OpBindWire 20 7%positive STRENGTH_WEAK;
                    OpBindPip 1 7%positive STRENGTH_STRONG] in
  is_Some (unbindBel s A) ∧ is_Some (unbindWire s 20) ∧
  is_Some (unbindWire s 11) ∧ is_Some (unbindPip s 1).
Proof.
  intros s.
  destruct (unbind_succeeds_on_bound_resources s) as (Hb & Hw & Hp).
  { exists toy_cells, toy_nets,
      [OpBindBel A 5%positive STRENGTH_PLACER;
       OpBindWire 20 7%positive STRENGTH_WEAK;
       OpBindPip 1 7%positive STRENGTH_STRONG].
    reflexivity. }
  split_and!.
  - destruct (Hb A 5%positive) as (s' & -> & _); [reflexivity|by eexists].
  - destruct (Hw 20 7%positive) as (s' & -> & _);
      [discriminate|reflexivity|by eexists].
  - destruct (Hw 11 7%positive) as (s' & -> & _);
      [discriminate|reflexivity|by eexists].
  - destruct (Hp 1 7%positive) as (s' & -> & _); [reflexivity|by eexists].
Defined.

Lemma unbindWire_of_dst_acts_as_unbindPip_witness :
  let s := toy_run [OpBindPip 1 7%positive STRENGTH_STRONG] in
  ∃ s1 s2, unbindPip s 1 = Some s1 ∧ unbindWire s 11 = Some s2 ∧
    base_wire2net s2 = base_wire2net s1 ∧
    base_pip2net s2 = base_pip2net s1 ∧
    nets s2 = nets s1 ∧
    ui_events s1 = [] ∧ ui_events s2 = [RefreshUiWire 11].
Proof.
  intros s.
  destruct (unbindWire_of_dst_acts_as_unbindPip s 1 7%positive)
    as (s1 & s2 & Hs1 & Hs2 & _ & Hw & Hp & Hn & _ & Hu1 & Hu2);
    [|reflexivity|discriminate|].
  { exists toy_cells, toy_nets, [OpBindPip 1 7%positive STRENGTH_STRONG].
    reflexivity. }
  exists s1, s2. by split_and!.
Defined.

Lemma bucket_lists_the_valid_bels_witness :
  init_bel_buckets (init_cell_types toy_new) = Some toy_indexed ∧
  getBelsInBucket toy_indexed (getBelBucketForCellType LUT) = Some [A; B] ∧
  getBelsInBucket toy_indexed (getBelBucketForCellType 7) = None.
Proof.
  split; [reflexivity|].
  destruct (bucket_lists_the_valid_bels toy_cells toy_nets toy_indexed eq_refl)
    as (types & Hct & Hall).
  vm_compute in Hct. injection Hct as <-.
  split.
  - rewrite (proj1 (Hall LUT)); [reflexivity|]. right. left.
  - apply (proj2 (Hall 7)). intros Hin.
    apply elem_of_cons in Hin as [Hin|Hin]; [discriminate|].
    apply elem_of_cons in Hin as [Hin|Hin]; [discriminate|].
    by apply elem_of_nil in Hin.
Defined.

Lemma buckets_are_the_cell_types_witness :
  init_bel_buckets (init_cell_types toy_new) = Some toy_indexed ∧
  getBelBuckets toy_indexed = getCellTypes toy_indexed ∧
  ∃ bels, getBelsInBucket toy_indexed (getBelBucketForBel C) = Some bels ∧
          C ∈ bels.
Proof.
  split; [reflexivity|].
  destruct (buckets_are_the_cell_types toy_cells toy_nets toy_indexed eq_refl)
    as (Heq & _ & Hfind).
  split; [exact Heq|]. apply Hfind. right. right. left.
Defined.

Lemma init_twice_duplicates_witness :
  ¬ NoDup (cell_types (init_cell_types (init_cell_types toy_new))) ∧
  ∃ s2 s3, init_bel_buckets (init_cell_types toy_new) = Some s2 ∧
    init_bel_buckets s2 = Some s3 ∧
    getBelsInBucket s3 LUT = Some [A; B; A; B].
Proof.
  destruct (init_twice_duplicates toy_cells toy_nets)
    as (_ & Hdup & s2 & s3 & Hs2 & Hs3 & _ & Hbk).
  split; [apply Hdup; discriminate|].
  exists s2, s3. split_and!; [done..|].
  apply (Hbk LUT [A; B]).
  injection Hs2 as <-. reflexivity.
Defined.

Module EmptyDeviceRuns.
Import EmptyDevice.
#[local] Remove Hints toy_arch : typeclass_instances.
#[local] Existing Instance empty_arch.

Lemma init_on_empty_device_witness :
  ∃ s2 : BaseArch Z Z Z Z,
    init_bel_buckets (init_cell_types (BaseArch_new toy_cells toy_nets))
      = Some s2 ∧
    getCellTypes s2 = Some [] ∧ getBelBuckets s2 = Some [] ∧
    getBelsInBucket s2 LUT = None.
Proof.
  destruct (init_on_empty_device toy_cells toy_nets)
    as (s2 & Hs2 & Hct & Hbk & Hnone); [reflexivity|].
  exists s2. by split_and!.
Defined.

End EmptyDeviceRuns.
